(** * Concurrency and resilience primitives of openclaw

    A shallow embedding of the five primitives of [src/infra]:
    the counting semaphore, the sliding-window rate limiter (in its two
    implementations), the LRU cache with TTL, the circuit breaker and the
    throttle, together with the properties their specification states.

    Conventions.  A JavaScript [number] holding a count or a millisecond
    timestamp is a [Z]; a construction option that the code passes through
    [Math.floor] is a rational [Q] (finite numbers only: [NaN] and the
    infinities are outside the model).  Every call of the clock [now()] is an
    explicit argument of the operation that makes it, so nothing is assumed
    about two readings being equal or ordered unless a statement says so. *)

From Stdlib Require Import ZArith QArith Qround Lia.
From stdpp Require Import base list strings sorting.

Local Open Scope Z_scope.

(** The settled result of a promise: fulfilled with a value or rejected with
    the value that was thrown. *)
Inductive outcome (T E : Type) : Type :=
| Fulfilled (v : T)
| Rejected (e : E).
Arguments Fulfilled {T E} v.
Arguments Rejected {T E} e.

(** [Math.max(lo, Math.floor(x))] on a finite number. *)
Definition clamp_floor (lo : Z) (x : Q) : Z := Z.max lo (Qfloor x).

(** Running a client program: the operations of [ops] in order from state
    [s], collecting what each one returns. *)
Fixpoint exec {S A O : Type} (step : S → A → O * S) (s : S) (ops : list A)
  : list O * S :=
  match ops with
  | [] => ([], s)
  | o :: ops' =>
      let '(out, s1) := step s o in
      let '(outs, s2) := exec step s1 ops' in
      (out :: outs, s2)
  end.

(** The states a program goes through: the state after each operation. *)
Fixpoint trajectory {S A : Type} (step : S → A → S) (s : S) (ops : list A)
  : list S :=
  match ops with
  | [] => []
  | o :: ops' => step s o :: trajectory step (step s o) ops'
  end.

(* ================================================================== *)
(** * Semaphore ([semaphore.ts]) *)
(* ================================================================== *)

Module Semaphore.

(** A queued closure [() => resolve(release)] is identified by the [acquire]
    call whose promise it resolves. *)
Definition waiter := nat.

(** The closure state of [createSemaphore]: the constant [maxConcurrency],
    the counter [activeCount] and the FIFO [queue].  [resolved] logs, oldest
    first, the [acquire] promises that have been resolved with [release]:
    it is the effect of [Promise.resolve(release)] and of [next()]. *)
Record state : Type := mkState {
  maxConcurrency : Z;
  activeCount : Z;
  queue : list waiter;
  resolved : list waiter;
}.

Definition createSemaphore (concurrency : Q) : state :=
  {| maxConcurrency := clamp_floor 1 concurrency;
     activeCount := 0;
     queue := [];
     resolved := [] |}.

(** [release]: decrement, then hand the permit to the head of the queue if
    there is one.  The function takes no argument and keeps no record of who
    calls it: every [acquire] resolves with this same closure. *)
Definition release (s : state) : state :=
  let active := activeCount s - 1 in
  match queue s with
  | [] => mkState (maxConcurrency s) active [] (resolved s)
  | next :: rest =>
      mkState (maxConcurrency s) (active + 1) rest (resolved s ++ [next])
  end.

(** [acquire], called by [w]: the fast path returns a promise that is
    already resolved ([true]), the slow path pushes the closure of [w] on the
    queue and returns a pending promise ([false]). *)
Definition acquire (w : waiter) (s : state) : bool * state :=
  if activeCount s <? maxConcurrency s
  then (true,
        mkState (maxConcurrency s) (activeCount s + 1) (queue s) (resolved s ++ [w]))
  else (false,
        mkState (maxConcurrency s) (activeCount s) (queue s ++ [w]) (resolved s)).

Definition active (s : state) : Z := activeCount s.
Definition waiting (s : state) : Z := Z.of_nat (length (queue s)).
Definition limit (s : state) : Z := maxConcurrency s.

(** One step of a client program: a new [acquire] call, or the caller of
    [acquire] number [w] invoking the callback its promise resolved with. *)
Inductive op : Type :=
| Acquire (w : waiter)
| Release (w : waiter).

Definition step (s : state) (o : op) : state :=
  match o with
  | Acquire w => (acquire w s).2
  | Release _ => release s
  end.

Definition run_ops (tr : list op) (s : state) : state := fold_left step tr s.

(** A trace the clients can produce: every [acquire] call is a new promise,
    and a callback is invoked only by a caller whose promise has resolved. *)
Fixpoint feasible (s : state) (issued : list waiter) (tr : list op) : bool :=
  match tr with
  | [] => true
  | Acquire w :: tr' =>
      bool_decide (w ∉ issued) && feasible (acquire w s).2 (w :: issued) tr'
  | Release w :: tr' =>
      bool_decide (w ∈ resolved s) && feasible (release s) issued tr'
  end.

Definition released_callbacks (tr : list op) : list waiter :=
  omap (λ o, match o with Release w => Some w | Acquire _ => None end) tr.

(** Every callback is invoked at most once. *)
Definition one_shot (tr : list op) : bool :=
  bool_decide (NoDup (released_callbacks tr)).

Definition within_limit (s : state) : Prop := 0 <= active s <= limit s.

(** [run(fn)].  The body of [fn] acts on a world [W] of its own and settles
    with an outcome; [run] suspends at [await acquire()] when no permit is
    free and is resumed by the [release] of an earlier holder. *)
Section Run.
Context {W T E : Type}.

(** [Settled]: the promise of [run] has settled.  [Suspended s resume]:
    [run] is parked at [await acquire()] with the semaphore in state [s];
    [resume] is the rest of its body, run in the semaphore state and world
    it finds when the [release] of an earlier holder resolves its promise. *)
Inductive run_result : Type :=
| Settled (o : outcome T E) (s : state) (w : W)
| Suspended (s : state) (resume : state → W → outcome T E * state * W).

(** The part of [run] after [await acquire()]: the [try] block awaits [fn],
    the [finally] block calls [releaseFn], and the completion of the [try]
    block (the value or the thrown error) is the completion of [run]. *)
Definition run_granted (fn : W → outcome T E * W) (s : state) (w : W)
  : outcome T E * state * W :=
  let '(o, w') := fn w in
  (o, release s, w').

Definition run (me : waiter) (fn : W → outcome T E * W) (s : state) (w : W)
  : run_result :=
  let '(granted, s1) := acquire me s in
  if granted
  then let '(o, s2, w') := run_granted fn s1 w in Settled o s2 w'
  else Suspended s1 (run_granted fn).

End Run.
Arguments run_result : clear implicits.

(** ** Facts about the semaphore *)

Lemma limit_createSemaphore c : 1 <= limit (createSemaphore c).
Proof. unfold limit, createSemaphore, clamp_floor; simpl. lia. Qed.

Lemma limit_step s o : limit (step s o) = limit s.
Proof.
  destruct o as [w|w]; unfold step, acquire, release, limit.
  - destruct (activeCount s <? maxConcurrency s); reflexivity.
  - destruct (queue s); reflexivity.
Qed.

(** Waiters exist only while every permit is taken; this holds whatever the
    clients do, double releases included. *)
Definition queue_only_when_full (s : state) : Prop :=
  queue s ≠ [] → maxConcurrency s <= activeCount s.

Lemma queue_only_when_full_step s o :
  queue_only_when_full s → queue_only_when_full (step s o).
Proof.
  unfold queue_only_when_full, step, acquire, release.
  intros Hs. destruct o as [w|w].
  - destruct (Z.ltb_spec (activeCount s) (maxConcurrency s)); simpl; intros Hq.
    + specialize (Hs Hq). lia.
    + lia.
  - destruct (queue s) as [|next rest] eqn:Hq; simpl; intros Hq'.
    + congruence.
    + assert (maxConcurrency s <= activeCount s) by (apply Hs; discriminate).
      lia.
Qed.

Lemma queue_only_when_full_run_ops tr s :
  queue_only_when_full s → queue_only_when_full (run_ops tr s).
Proof.
  revert s. induction tr as [|o tr IH]; intros s Hs; simpl; [exact Hs|].
  apply IH, queue_only_when_full_step, Hs.
Qed.

(** The bookkeeping behind the invariant: [rel] are the callbacks already
    invoked, each one resolved before; the counter is the number of
    callbacks handed out and not yet invoked. *)
Record balanced (s : state) (issued rel : list waiter) : Prop := {
  bal_limit : 1 <= maxConcurrency s;
  bal_nodup : NoDup (resolved s ++ queue s);
  bal_issued : ∀ w, w ∈ resolved s ++ queue s → w ∈ issued;
  bal_rel : NoDup rel ∧ ∀ w, w ∈ rel → w ∈ resolved s;
  bal_count :
    activeCount s = Z.of_nat (length (resolved s)) - Z.of_nat (length rel);
  bal_le : activeCount s <= maxConcurrency s;
}.

Lemma balanced_within_limit s issued rel :
  balanced s issued rel → within_limit s.
Proof.
  intros [Hl _ _ [Hnd Hsub] Hc Hle]. unfold within_limit, active, limit.
  split; [|exact Hle].
  pose proof (submseteq_length _ _ (NoDup_submseteq _ _ Hnd Hsub)). lia.
Qed.

Lemma balanced_acquire s issued rel w :
  w ∉ issued → balanced s issued rel →
  balanced (acquire w s).2 (w :: issued) rel.
Proof.
  intros Hw [Hl Hnd Hiss [Hrnd Hsub] Hc Hle].
  assert (Hfresh : w ∉ resolved s ++ queue s) by (intros Hin; apply Hw, Hiss, Hin).
  unfold acquire.
  destruct (Z.ltb_spec (activeCount s) (maxConcurrency s)); simpl.
  - constructor; simpl; try lia.
    + rewrite <- app_assoc. simpl.
      apply (NoDup_Permutation_proper _ _ (Permutation_middle _ _ _)).
      apply NoDup_cons; split; [exact Hfresh | exact Hnd].
    + intros x Hx. rewrite <- app_assoc in Hx. simpl in Hx.
      rewrite <- Permutation_middle in Hx.
      apply elem_of_cons in Hx as [-> | Hx]; [left | right; apply Hiss, Hx].
    + split; [exact Hrnd|]. intros x Hx. apply elem_of_app. left. apply Hsub, Hx.
    + rewrite length_app. simpl. lia.
  - constructor; simpl; try lia.
    + rewrite app_assoc. apply NoDup_app. split; [exact Hnd|].
      split; [|apply NoDup_singleton].
      intros x Hx Hx'. apply list_elem_of_singleton in Hx'. subst x. exact (Hfresh Hx).
    + intros x Hx. rewrite app_assoc in Hx.
      apply elem_of_app in Hx as [Hx | Hx].
      * right. apply Hiss, Hx.
      * apply list_elem_of_singleton in Hx. subst x. left.
    + split; assumption.
Qed.

Lemma balanced_release s issued rel w :
  w ∈ resolved s → w ∉ rel → balanced s issued rel →
  balanced (release s) issued (w :: rel).
Proof.
  intros Hw Hnew [Hl Hnd Hiss [Hrnd Hsub] Hc Hle].
  assert (Hlen : (length (w :: rel) ≤ length (resolved s))%nat).
  { apply submseteq_length, NoDup_submseteq.
    - apply NoDup_cons; split; assumption.
    - intros x Hx. apply elem_of_cons in Hx as [-> | Hx]; [exact Hw | apply Hsub, Hx]. }
  simpl in Hlen.
  unfold release. destruct (queue s) as [|next rest] eqn:Hq; simpl.
  - constructor; simpl; try lia.
    + exact Hnd.
    + intros x Hx. apply Hiss. exact Hx.
    + split; [apply NoDup_cons; split; assumption|].
      intros x Hx. apply elem_of_cons in Hx as [-> | Hx]; [exact Hw | apply Hsub, Hx].
  - constructor; simpl; try lia.
    + rewrite <- app_assoc. exact Hnd.
    + intros x Hx. apply Hiss. rewrite <- app_assoc in Hx. exact Hx.
    + split; [apply NoDup_cons; split; assumption|].
      intros x Hx. apply elem_of_app. left.
      apply elem_of_cons in Hx as [-> | Hx]; [exact Hw | apply Hsub, Hx].
    + rewrite length_app. simpl. lia.
Qed.

Lemma balanced_trajectory tr : ∀ s issued rel,
  balanced s issued rel →
  feasible s issued tr = true →
  NoDup (rel ++ released_callbacks tr) →
  Forall within_limit (trajectory step s tr).
Proof.
  induction tr as [|o tr IH]; intros s issued rel Hb Hf Hnd; simpl; [constructor|].
  destruct o as [w|w]; simpl in Hf; apply andb_true_iff in Hf as [Hw Hf];
    apply bool_decide_eq_true in Hw.
  - pose proof (balanced_acquire s issued rel w Hw Hb) as Hb'.
    constructor; [eapply balanced_within_limit, Hb'|].
    eapply IH; [exact Hb' | exact Hf | exact Hnd].
  - simpl in Hnd.
    assert (Hnd' : NoDup ((w :: rel) ++ released_callbacks tr)).
    { simpl. apply (NoDup_Permutation_proper _ _ (Permutation_middle _ _ _)). exact Hnd. }
    assert (Hnew : w ∉ rel).
    { simpl in Hnd'. apply NoDup_cons in Hnd' as [Hn _].
      intros Hin. apply Hn, elem_of_app. left. exact Hin. }
    pose proof (balanced_release s issued rel w Hw Hnew Hb) as Hb'.
    constructor; [eapply balanced_within_limit, Hb'|].
    eapply IH; [exact Hb' | exact Hf | exact Hnd'].
Qed.

Lemma balanced_createSemaphore c : balanced (createSemaphore c) [] [].
Proof.
  constructor; simpl; try (unfold clamp_floor; lia).
  - apply NoDup_nil_2.
  - intros w Hw. exact Hw.
  - split; [apply NoDup_nil_2 | intros w Hw; exact Hw].
Qed.

(** ** The invariant [0 <= active() <= limit()] *)

(** C1, as stated, fails: the same [release] closure is handed to every
    caller and does not remember having been called.  With one permit,
    [acquire] followed by two invocations of the callback it returned is a
    trace the client can produce, and it leaves [active() = -1]. *)
Lemma double_release_goes_negative :
  let tr := [Acquire 0%nat; Release 0%nat; Release 0%nat] in
  feasible (createSemaphore 1%Q) [] tr = true
  ∧ map active (trajectory step (createSemaphore 1%Q) tr) = [1; 0; -1]
  ∧ ¬ Forall within_limit (trajectory step (createSemaphore 1%Q) tr).
Proof.
  split; [reflexivity|]. split; [reflexivity|].
  intros H. vm_compute in H.
  apply Forall_cons in H as [_ H]. apply Forall_cons in H as [_ H].
  apply Forall_cons in H as [[H _] _]. apply H. reflexivity.
Qed.

(** The upper bound needs no discipline from the clients: [acquire] counts
    up only below the limit and [release] never counts up. *)
Lemma upper_bound_trajectory tr : ∀ s,
  activeCount s <= maxConcurrency s →
  Forall (λ s', active s' <= limit s') (trajectory step s tr).
Proof.
  induction tr as [|o tr IH]; intros s Hs; simpl; [constructor|].
  assert (Hstep : activeCount (step s o) <= maxConcurrency (step s o)).
  { destruct o as [w|w]; unfold step, acquire, release.
    - destruct (Z.ltb_spec (activeCount s) (maxConcurrency s)); simpl; lia.
    - destruct (queue s); simpl; lia. }
  constructor; [exact Hstep | apply IH, Hstep].
Qed.

(** C1, amended: for every requested concurrency and every sequence of
    [acquire] calls and invocations of release callbacks, a callback invoked
    more than once included, [active() <= limit()] holds after every step;
    and when the sequence is one the clients can produce and invokes each
    returned release callback at most once, [0 <= active() <= limit()]
    holds after every step. *)
Theorem active_bounds_by_release_discipline (c : Q) (tr : list op) :
  Forall (λ s, active s <= limit s) (trajectory step (createSemaphore c) tr)
  ∧ (feasible (createSemaphore c) [] tr = true →
     one_shot tr = true →
     Forall within_limit (trajectory step (createSemaphore c) tr)).
Proof.
  split.
  - apply upper_bound_trajectory. simpl. unfold clamp_floor. lia.
  - intros Hf Hone. apply bool_decide_eq_true in Hone.
    apply (balanced_trajectory tr _ [] []);
      [apply balanced_createSemaphore | exact Hf | exact Hone].
Qed.

(** Three callers on two permits: the third waits, is handed the permit of
    the first, and every callback is invoked once; and the double release
    on one permit, which stays below the limit. *)
Lemma active_bounds_by_release_discipline_witness :
  Forall within_limit
    (trajectory step (createSemaphore 2%Q)
       [Acquire 0%nat; Acquire 1%nat; Acquire 2%nat;
        Release 0%nat; Release 1%nat; Release 2%nat])
  ∧ Forall (λ s, active s <= limit s)
      (trajectory step (createSemaphore 1%Q)
         [Acquire 0%nat; Release 0%nat; Release 0%nat]).
Proof.
  split.
  - apply (active_bounds_by_release_discipline 2%Q
             [Acquire 0%nat; Acquire 1%nat; Acquire 2%nat;
              Release 0%nat; Release 1%nat; Release 2%nat]);
      vm_compute; reflexivity.
  - apply (active_bounds_by_release_discipline 1%Q
             [Acquire 0%nat; Release 0%nat; Release 0%nat]).
Defined.

(** ** [run] *)



(** ** Order of service and accounting *)

(** The [acquire] calls of a trace, in call order. *)
Definition acquire_calls (tr : list op) : list waiter :=
  omap (λ o, match o with Acquire w => Some w | Release _ => None end) tr.

Lemma served_in_order_step s o calls :
  queue_only_when_full s →
  resolved s ++ queue s = calls →
  resolved (step s o) ++ queue (step s o) = calls ++ acquire_calls [o].
Proof.
  intros Hfull Horder. destruct o as [w|w]; unfold step, acquire, release; simpl.
  - destruct (Z.ltb_spec (activeCount s) (maxConcurrency s)) as [Hlt|Hge]; simpl.
    + assert (Hempty : queue s = []).
      { destruct (queue s) as [|x q] eqn:Hq; [reflexivity|].
        assert (maxConcurrency s <= activeCount s) by (apply Hfull; rewrite Hq; discriminate).
        lia. }
      rewrite Hempty in *. rewrite !app_nil_r in *. congruence.
    + rewrite app_assoc. congruence.
  - rewrite app_nil_r. destruct (queue s) as [|next rest]; simpl.
    + exact Horder.
    + rewrite <- app_assoc. exact Horder.
Qed.

Lemma served_in_order_run_ops tr : ∀ s calls,
  queue_only_when_full s →
  resolved s ++ queue s = calls →
  resolved (run_ops tr s) ++ queue (run_ops tr s) = calls ++ acquire_calls tr.
Proof.
  induction tr as [|o tr IH]; intros s calls Hfull Horder.
  - simpl. rewrite app_nil_r. exact Horder.
  - change (run_ops (o :: tr) s) with (run_ops tr (step s o)).
    rewrite (IH (step s o) (calls ++ acquire_calls [o])).
    + rewrite <- app_assoc. f_equal.
      unfold acquire_calls. simpl. destruct o; reflexivity.
    + apply queue_only_when_full_step, Hfull.
    + apply served_in_order_step; assumption.
Qed.

(** X1: FIFO service: whatever the clients do, the promises resolved so far,
    in the order they were resolved, followed by the callers still queued,
    are the [acquire] calls in the order they were made; no caller is
    overtaken and none is dropped. *)
Theorem waiters_served_in_call_order (c : Q) (tr : list op) :
  resolved (run_ops tr (createSemaphore c)) ++ queue (run_ops tr (createSemaphore c))
  = acquire_calls tr.
Proof.
  apply (served_in_order_run_ops tr (createSemaphore c) []).
  - intros Hne. exfalso. apply Hne. reflexivity.
  - reflexivity.
Qed.

Lemma active_le_limit_step s o :
  activeCount s <= maxConcurrency s →
  activeCount (step s o) <= maxConcurrency (step s o).
Proof.
  intros Hle. destruct o as [w|w]; unfold step, acquire, release.
  - destruct (Z.ltb_spec (activeCount s) (maxConcurrency s)); simpl; lia.
  - destruct (queue s); simpl; lia.
Qed.

Lemma active_le_limit_run_ops tr : ∀ s,
  activeCount s <= maxConcurrency s →
  activeCount (run_ops tr s) <= maxConcurrency (run_ops tr s).
Proof.
  induction tr as [|o tr IH]; intros s Hs; simpl; [exact Hs|].
  apply IH, active_le_limit_step, Hs.
Qed.

(** X2: The upper bound needs no discipline: after any trace, double releases
    included, [active() <= limit()], and callers are queued only while
    [active() >= limit()]; so whenever someone waits, [active() = limit()]. *)
Theorem active_never_exceeds_limit (c : Q) (tr : list op) :
  let s := run_ops tr (createSemaphore c) in
  active s <= limit s ∧ (0 < waiting s → active s = limit s).
Proof.
  intros s.
  assert (Hle : activeCount s <= maxConcurrency s).
  { apply active_le_limit_run_ops. simpl. unfold clamp_floor. lia. }
  assert (Hfull : queue_only_when_full s).
  { apply queue_only_when_full_run_ops. intros Hne. exfalso. apply Hne. reflexivity. }
  unfold active, limit, waiting. split; [exact Hle|].
  intros Hwait. assert (maxConcurrency s <= activeCount s).
  { apply Hfull. destruct (queue s); simpl in Hwait; [lia | discriminate]. }
  lia.
Qed.

Lemma balanced_run_ops tr : ∀ s issued rel,
  balanced s issued rel →
  feasible s issued tr = true →
  NoDup (rel ++ released_callbacks tr) →
  ∃ issued' rel',
    balanced (run_ops tr s) issued' rel'
    ∧ length rel' = (length rel + length (released_callbacks tr))%nat.
Proof.
  induction tr as [|o tr IH]; intros s issued rel Hb Hf Hnd.
  - exists issued, rel. split; [exact Hb | simpl; lia].
  - change (run_ops (o :: tr) s) with (run_ops tr (step s o)).
    destruct o as [w|w]; simpl in Hf; apply andb_true_iff in Hf as [Hw Hf];
      apply bool_decide_eq_true in Hw.
    + apply (IH _ (w :: issued) rel); [apply balanced_acquire; assumption | exact Hf | exact Hnd].
    + simpl in Hnd.
      assert (Hnd' : NoDup ((w :: rel) ++ released_callbacks tr)).
      { simpl. apply (NoDup_Permutation_proper _ _ (Permutation_middle _ _ _)). exact Hnd. }
      assert (Hnew : w ∉ rel).
      { simpl in Hnd'. apply NoDup_cons in Hnd' as [Hn _].
        intros Hin. apply Hn, elem_of_app. left. exact Hin. }
      destruct (IH (release s) issued (w :: rel)) as (issued' & rel' & Hb' & Hlen);
        [apply balanced_release; assumption | exact Hf | exact Hnd' |].
      exists issued', rel'. split; [exact Hb'|]. simpl in *. lia.
Qed.

(** X3: With one-shot use, [active()] is exactly the number of permits out:
    the promises resolved so far minus the callbacks already invoked. *)
Theorem active_counts_permits_held (c : Q) (tr : list op) :
  feasible (createSemaphore c) [] tr = true →
  one_shot tr = true →
  active (run_ops tr (createSemaphore c))
  = Z.of_nat (length (resolved (run_ops tr (createSemaphore c))))
    - Z.of_nat (length (released_callbacks tr)).
Proof.
  intros Hf Hone. apply bool_decide_eq_true in Hone.
  destruct (balanced_run_ops tr (createSemaphore c) [] [] (balanced_createSemaphore c) Hf Hone)
    as (issued' & rel' & Hb & Hlen).
  destruct Hb as [_ _ _ _ Hcount _]. unfold active. rewrite Hcount.
  simpl in Hlen. lia.
Qed.

(** Three callers on two permits, the first two done: one permit is out. *)
Lemma active_counts_permits_held_witness :
  active (run_ops [Acquire 0%nat; Acquire 1%nat; Acquire 2%nat;
                   Release 0%nat; Release 1%nat] (createSemaphore 2%Q))
  = Z.of_nat (length (resolved
       (run_ops [Acquire 0%nat; Acquire 1%nat; Acquire 2%nat;
                 Release 0%nat; Release 1%nat] (createSemaphore 2%Q))))
    - Z.of_nat (length (released_callbacks
         [Acquire 0%nat; Acquire 1%nat; Acquire 2%nat;
          Release 0%nat; Release 1%nat])).
Proof.
  apply (active_counts_permits_held 2%Q
           [Acquire 0%nat; Acquire 1%nat; Acquire 2%nat;
            Release 0%nat; Release 1%nat]);
    vm_compute; reflexivity.
Defined.

End Semaphore.

(* ================================================================== *)
(** * Sliding-window rate limiter ([sliding-window-rate-limit.ts]) *)
(* ================================================================== *)

Module RateLimiter.

(** The constants of the closure, after clamping. *)
Record config : Type := mkConfig {
  maxRequests : Z;
  windowMs : Z;
}.

Definition normalize (maxRequestsParam windowMsParam : Q) : config :=
  {| maxRequests := clamp_floor 1 maxRequestsParam;
     windowMs := clamp_floor 1 windowMsParam |}.

(** What [consume] returns. *)
Record verdict : Type := mkVerdict {
  allowed : bool;
  retryAfterMs : Z;
  remaining : Z;
}.

(** A call of the public interface; [nowMs] is the value [now()] returns
    during the call (each of [consume] and [count] reads the clock once). *)
Inductive op : Type :=
| Consume (nowMs : Z)
| Reset
| Count (nowMs : Z).

Inductive output : Type :=
| Consumed (v : verdict)
| ResetDone
| Counted (n : Z).

Definition op_time (o : op) : option Z :=
  match o with
  | Consume t | Count t => Some t
  | Reset => None
  end.

(** The clock readings of a program, in order. *)
Definition clock_readings (ops : list op) : list Z := omap op_time ops.

(** ** The front-truncating array *)
Module Naive.

(** The state is the array [timestamps] itself. *)
Abbreviation state := (list Z).

Definition init : state := [].

(** [while (timestamps.length > 0 && timestamps[0] < cutoff) timestamps.shift()] *)
Fixpoint shift_while (cutoff : Z) (timestamps : list Z) : list Z :=
  match timestamps with
  | [] => []
  | t :: rest => if t <? cutoff then shift_while cutoff rest else timestamps
  end.

Definition prune (cfg : config) (nowMs : Z) (timestamps : state) : state :=
  let cutoff := nowMs - windowMs cfg in
  shift_while cutoff timestamps.

(** [oldest = timestamps[0]] is read only when the log holds at least
    [maxRequests >= 1] entries; the default stands for the read of an empty
    array, which that guard excludes. *)
Definition consume (cfg : config) (nowMs : Z) (timestamps : state)
  : verdict * state :=
  let timestamps := prune cfg nowMs timestamps in
  if maxRequests cfg <=? Z.of_nat (length timestamps)
  then
    let oldest := default 0 (timestamps !! 0%nat) in
    let retry := Z.max 0 (oldest + windowMs cfg - nowMs) in
    (mkVerdict false retry 0, timestamps)
  else
    let timestamps := timestamps ++ [nowMs] in
    (mkVerdict true 0 (Z.max 0 (maxRequests cfg - Z.of_nat (length timestamps))),
     timestamps).

Definition reset (timestamps : state) : state := [].

Definition count (cfg : config) (nowMs : Z) (timestamps : state) : Z * state :=
  let timestamps := prune cfg nowMs timestamps in
  (Z.of_nat (length timestamps), timestamps).

Definition step (cfg : config) (s : state) (o : op) : output * state :=
  match o with
  | Consume t => let '(v, s') := consume cfg t s in (Consumed v, s')
  | Reset => (ResetDone, reset s)
  | Count t => let '(n, s') := count cfg t s in (Counted n, s')
  end.

Definition run (cfg : config) (ops : list op) : list output * state :=
  exec (step cfg) init ops.

End Naive.

(** ** The buffer with a logical head index *)
Module Ring.

Record state : Type := mkState {
  buf : list Z;
  head : nat;
}.

Definition init : state := {| buf := []; head := 0 |}.

Definition activeCount (s : state) : Z :=
  Z.of_nat (length (buf s)) - Z.of_nat (head s).

(** The entries still in the window: [buf.slice(head)]. *)
Definition live (s : state) : list Z := drop (head s) (buf s).

(** [while (head < buf.length && buf[head] < cutoff) head += 1], with one
    unit of fuel per iteration. *)
Fixpoint advance (fuel : nat) (cutoff : Z) (buf : list Z) (head : nat) : nat :=
  match fuel with
  | O => head
  | S fuel' =>
      match buf !! head with
      | Some t => if t <? cutoff then advance fuel' cutoff buf (S head) else head
      | None => head
      end
  end.

(** The loop runs at most [buf.length - head] times.  Compaction tests
    [head > buf.length / 2] on real numbers, which is [2 * head > buf.length]. *)
Definition prune (cfg : config) (nowMs : Z) (s : state) : state :=
  let cutoff := nowMs - windowMs cfg in
  let head := advance (length (buf s) - head s) cutoff (buf s) (head s) in
  if (0 <? Z.of_nat head) && (Z.of_nat (length (buf s)) <? 2 * Z.of_nat head)
  then {| buf := drop head (buf s); head := 0 |}
  else {| buf := buf s; head := head |}.

(** [oldest = buf[head]] is read only when [activeCount() >= maxRequests >= 1];
    the default stands for a read past the end, which that guard excludes. *)
Definition consume (cfg : config) (nowMs : Z) (s : state) : verdict * state :=
  let s := prune cfg nowMs s in
  if maxRequests cfg <=? activeCount s
  then
    let oldest := default 0 (buf s !! head s) in
    let retry := Z.max 0 (oldest + windowMs cfg - nowMs) in
    (mkVerdict false retry 0, s)
  else
    let s := {| buf := buf s ++ [nowMs]; head := head s |} in
    (mkVerdict true 0 (Z.max 0 (maxRequests cfg - activeCount s)), s).

Definition reset (s : state) : state := {| buf := []; head := 0 |}.

Definition count (cfg : config) (nowMs : Z) (s : state) : Z * state :=
  let s := prune cfg nowMs s in
  (activeCount s, s).

Definition step (cfg : config) (s : state) (o : op) : output * state :=
  match o with
  | Consume t => let '(v, s') := consume cfg t s in (Consumed v, s')
  | Reset => (ResetDone, reset s)
  | Count t => let '(n, s') := count cfg t s in (Counted n, s')
  end.

Definition run (cfg : config) (ops : list op) : list output * state :=
  exec (step cfg) init ops.

End Ring.

(** ** The ring buffer simulates the array *)

Lemma shift_while_suffix cutoff ts :
  ∃ dead, ts = dead ++ Naive.shift_while cutoff ts
          ∧ Forall (λ t, t < cutoff) dead.
Proof.
  induction ts as [|t rest [dead [Heq Hdead]]]; simpl.
  - exists []. split; [reflexivity | constructor].
  - destruct (Z.ltb_spec t cutoff) as [Hlt|Hge].
    + exists (t :: dead). split; [simpl; congruence | constructor; assumption].
    + exists []. split; [reflexivity | constructor].
Qed.

(** With fuel for every remaining slot the loop ends where the array
    version stops shifting. *)
Lemma live_advance fuel : ∀ cutoff buf head,
  (length buf - head ≤ fuel)%nat →
  drop (Ring.advance fuel cutoff buf head) buf
  = Naive.shift_while cutoff (drop head buf).
Proof.
  induction fuel as [|fuel IH]; intros cutoff buf head Hfuel; simpl.
  - rewrite drop_ge by lia. reflexivity.
  - destruct (buf !! head) as [t|] eqn:Hlook.
    + rewrite (drop_S _ _ _ Hlook). simpl.
      destruct (t <? cutoff).
      * apply IH. lia.
      * apply (drop_S _ _ _ Hlook).
    + apply lookup_ge_None in Hlook. rewrite drop_ge by lia. reflexivity.
Qed.

Lemma advance_bounds fuel : ∀ cutoff buf head,
  (head ≤ length buf)%nat →
  (head ≤ Ring.advance fuel cutoff buf head ≤ length buf)%nat.
Proof.
  induction fuel as [|fuel IH]; intros cutoff buf head Hhead; simpl; [lia|].
  destruct (buf !! head) as [t|] eqn:Hlook; [|lia].
  destruct (t <? cutoff); [|lia].
  apply lookup_lt_Some in Hlook.
  specialize (IH cutoff buf (S head)). lia.
Qed.

(** The loop has really ended: the new head is past the end or points at an
    entry that is not older than the cutoff. *)
Lemma advance_stops cutoff buf head :
  (head ≤ length buf)%nat →
  match buf !! Ring.advance (length buf - head) cutoff buf head with
  | Some t => cutoff <= t
  | None => True
  end.
Proof.
  intros Hhead.
  pose proof (live_advance (length buf - head) cutoff buf head (le_n _)) as Hlive.
  destruct (buf !! Ring.advance (length buf - head) cutoff buf head) as [t|] eqn:Hlook;
    [|exact I].
  rewrite (drop_S _ _ _ Hlook) in Hlive.
  induction (drop head buf) as [|x rest IH]; simpl in Hlive; [discriminate|].
  destruct (Z.ltb_spec x cutoff) as [Hlt|Hge]; [apply IH, Hlive|].
  injection Hlive as -> _. exact Hge.
Qed.

(** The head never passes the end of the buffer. *)
Definition head_in_range (s : Ring.state) : Prop :=
  (Ring.head s ≤ length (Ring.buf s))%nat.

Lemma activeCount_live s :
  head_in_range s → Ring.activeCount s = Z.of_nat (length (Ring.live s)).
Proof.
  unfold head_in_range, Ring.activeCount, Ring.live. intros H.
  rewrite length_drop. lia.
Qed.

Lemma prune_simulation cfg nowMs s :
  head_in_range s →
  Ring.live (Ring.prune cfg nowMs s) = Naive.prune cfg nowMs (Ring.live s)
  ∧ head_in_range (Ring.prune cfg nowMs s).
Proof.
  intros Hs. unfold Ring.prune, Naive.prune, Ring.live, head_in_range in *.
  pose proof (advance_bounds (length (Ring.buf s) - Ring.head s)
                (nowMs - windowMs cfg) (Ring.buf s) (Ring.head s) Hs) as Hb.
  pose proof (live_advance (length (Ring.buf s) - Ring.head s)
                (nowMs - windowMs cfg) (Ring.buf s) (Ring.head s) (le_n _)) as Hl.
  destruct (_ && _); simpl.
  - split; [exact Hl | lia].
  - split; [exact Hl | lia].
Qed.

Lemma step_simulation cfg s o :
  head_in_range s →
  (Ring.step cfg s o).1 = (Naive.step cfg (Ring.live s) o).1
  ∧ Ring.live (Ring.step cfg s o).2 = (Naive.step cfg (Ring.live s) o).2
  ∧ head_in_range (Ring.step cfg s o).2.
Proof.
  intros Hs. destruct o as [t| |t]; unfold Ring.step, Naive.step.
  - unfold Ring.consume, Naive.consume.
    destruct (prune_simulation cfg t s Hs) as [Hlive Hwf].
    rewrite <- Hlive. rewrite (activeCount_live _ Hwf).
    set (s1 := Ring.prune cfg t s) in *.
    destruct (maxRequests cfg <=? Z.of_nat (length (Ring.live s1))); cbn [fst snd].
    + assert (Hold : Ring.live s1 !! 0%nat = Ring.buf s1 !! Ring.head s1).
      { unfold Ring.live. rewrite lookup_drop, Nat.add_0_r. reflexivity. }
      rewrite Hold.
      split; [reflexivity|]. split; [reflexivity | exact Hwf].
    + assert (Hwf' : head_in_range
                       {| Ring.buf := Ring.buf s1 ++ [t]; Ring.head := Ring.head s1 |}).
      { unfold head_in_range in *; simpl. rewrite length_app. simpl. lia. }
      assert (Hlive' : Ring.live
                         {| Ring.buf := Ring.buf s1 ++ [t]; Ring.head := Ring.head s1 |}
                       = Ring.live s1 ++ [t]).
      { unfold Ring.live; simpl. apply drop_app_le. exact Hwf. }
      rewrite (activeCount_live _ Hwf'), Hlive'.
      split; [reflexivity|]. split; [reflexivity | exact Hwf'].
  - split; [reflexivity|]. split; [reflexivity|].
    unfold head_in_range; simpl. lia.
  - unfold Ring.count, Naive.count.
    destruct (prune_simulation cfg t s Hs) as [Hlive Hwf].
    cbn [fst snd]. rewrite <- Hlive, (activeCount_live _ Hwf).
    split; [reflexivity|]. split; [reflexivity | exact Hwf].
Qed.

Lemma exec_simulation cfg ops : ∀ s,
  head_in_range s →
  (exec (Ring.step cfg) s ops).1 = (exec (Naive.step cfg) (Ring.live s) ops).1
  ∧ Ring.live (exec (Ring.step cfg) s ops).2
    = (exec (Naive.step cfg) (Ring.live s) ops).2.
Proof.
  induction ops as [|o ops IH]; intros s Hs; simpl; [split; reflexivity|].
  destruct (step_simulation cfg s o Hs) as (Hout & Hlive & Hwf).
  destruct (Ring.step cfg s o) as [out s1].
  destruct (Naive.step cfg (Ring.live s) o) as [out' ts1].
  simpl in Hout, Hlive, Hwf. subst out' ts1.
  destruct (IH s1 Hwf) as [IHout IHlive].
  destruct (exec (Ring.step cfg) s1 ops) as [outs s2].
  destruct (exec (Naive.step cfg) (Ring.live s1) ops) as [outs' ts2].
  simpl in *. split; congruence.
Qed.

Lemma exec_head_in_range cfg ops : ∀ s,
  head_in_range s → head_in_range (exec (Ring.step cfg) s ops).2.
Proof.
  induction ops as [|o ops IH]; intros s Hs; simpl; [exact Hs|].
  destruct (step_simulation cfg s o Hs) as (_ & _ & Hs1).
  destruct (Ring.step cfg s o) as [out s1]. simpl in Hs1.
  specialize (IH s1 Hs1).
  destruct (exec (Ring.step cfg) s1 ops) as [outs s2]. exact IH.
Qed.

(** C7: under the same configuration and the same clock readings, every
    program of [consume], [reset] and [count] calls gets the same answers
    from the ring buffer as from the array, and the live part of the buffer
    is the array. *)
Theorem ring_buffer_observationally_equivalent
    (maxRequestsParam windowMsParam : Q) (ops : list op) :
  let cfg := normalize maxRequestsParam windowMsParam in
  (Ring.run cfg ops).1 = (Naive.run cfg ops).1
  ∧ Ring.live (Ring.run cfg ops).2 = (Naive.run cfg ops).2.
Proof.
  intros cfg. unfold Ring.run, Naive.run.
  apply (exec_simulation cfg ops Ring.init).
  unfold head_in_range; simpl. lia.
Qed.

(** The scenario of the specification: two requests per second, requests at
    1000 and 1300 pass, the one at 1400 must wait 600 ms. *)
Example retry_after_600 :
  (Ring.run (normalize 2%Q 1000%Q) [Consume 1000; Consume 1300; Consume 1400]).1
  = [Consumed (mkVerdict true 0 1); Consumed (mkVerdict true 0 0);
     Consumed (mkVerdict false 600 0)].
Proof. reflexivity. Qed.

(** ** What pruning retains *)

Lemma shift_while_sorted cutoff ts :
  StronglySorted Z.le ts →
  Forall (λ t, cutoff <= t) (Naive.shift_while cutoff ts).
Proof.
  induction 1 as [|t rest Hsorted IH Hle]; simpl; [constructor|].
  destruct (Z.ltb_spec t cutoff) as [Hlt|Hge]; [exact IH|].
  constructor; [exact Hge|].
  eapply Forall_impl; [exact Hle|]. intros x Hx; simpl in Hx. lia.
Qed.

(** Dropping entries from the front or the middle of a sorted sequence. *)
Lemma sorted_drop_middle (dead keep later : list Z) (mid : list Z) :
  StronglySorted Z.le ((dead ++ keep) ++ mid ++ later) →
  StronglySorted Z.le (keep ++ later).
Proof.
  rewrite !StronglySorted_app. intros (Hcross & (_ & _ & Hkeep) & (_ & _ & Hlater)).
  split; [|split; assumption].
  intros x y Hx Hy. apply Hcross; apply elem_of_app; right; assumption.
Qed.

(** Under a clock that never goes back, the log followed by the readings
    still to come is non-decreasing. *)
Lemma naive_step_sorted cfg ts o later :
  StronglySorted Z.le (ts ++ clock_readings [o] ++ later) →
  StronglySorted Z.le ((Naive.step cfg ts o).2 ++ later).
Proof.
  destruct o as [t| |t]; unfold Naive.step, clock_readings; simpl.
  - unfold Naive.consume, Naive.prune.
    destruct (shift_while_suffix (t - windowMs cfg) ts) as (dead & Heq & _).
    set (keep := Naive.shift_while (t - windowMs cfg) ts) in *.
    intros Hsorted. rewrite Heq in Hsorted.
    destruct (maxRequests cfg <=? Z.of_nat (length keep)); cbn [fst snd].
    + apply (sorted_drop_middle dead keep later [t]). exact Hsorted.
    + rewrite <- app_assoc. apply (StronglySorted_app_1_r _ dead).
      rewrite <- app_assoc in Hsorted. exact Hsorted.
  - unfold Naive.reset. intros Hsorted. apply (StronglySorted_app_1_r _ ts), Hsorted.
  - unfold Naive.count, Naive.prune.
    destruct (shift_while_suffix (t - windowMs cfg) ts) as (dead & Heq & _).
    set (keep := Naive.shift_while (t - windowMs cfg) ts) in *.
    intros Hsorted. rewrite Heq in Hsorted. cbn [fst snd].
    apply (sorted_drop_middle dead keep later [t]). exact Hsorted.
Qed.

Lemma naive_exec_sorted cfg ops : ∀ ts later,
  StronglySorted Z.le (ts ++ clock_readings ops ++ later) →
  StronglySorted Z.le ((exec (Naive.step cfg) ts ops).2 ++ later).
Proof.
  induction ops as [|o ops IH]; intros ts later Hsorted; [exact Hsorted|].
  assert (Hsplit : clock_readings (o :: ops) = clock_readings [o] ++ clock_readings ops).
  { unfold clock_readings. simpl. destruct (op_time o); reflexivity. }
  rewrite Hsplit, <- app_assoc in Hsorted.
  apply naive_step_sorted with (cfg := cfg) in Hsorted.
  cbn [exec].
  destruct (Naive.step cfg ts o) as [out ts1]. cbn [fst snd] in Hsorted.
  specialize (IH ts1 later Hsorted).
  destruct (exec (Naive.step cfg) ts1 ops) as [outs ts2]. exact IH.
Qed.

(** C2, as stated, fails: pruning removes only timestamps strictly below
    the cutoff.  A request accepted at time 0 in a window of 1000 ms is still
    in the log after the pruning of a call at time 1000, where it equals
    [now - windowMs]; both implementations keep it and count it. *)
Lemma boundary_timestamp_is_retained :
  let cfg := normalize 2%Q 1000%Q in
  Naive.prune cfg 1000 (Naive.run cfg [Consume 0]).2 = [0]
  ∧ Ring.live (Ring.prune cfg 1000 (Ring.run cfg [Consume 0]).2) = [0]
  ∧ (Naive.run cfg [Consume 0; Count 1000]).1
    = [Consumed (mkVerdict true 0 1); Counted 1]
  ∧ ¬ Forall (λ t, t > 1000 - windowMs cfg)
        (Naive.prune cfg 1000 (Naive.run cfg [Consume 0]).2).
Proof.
  repeat split; try reflexivity.
  intros H. vm_compute in H. apply Forall_cons in H as [H _]. discriminate H.
Qed.

(** On a non-decreasing log the loop removes exactly the timestamps
    strictly below the cutoff: what it keeps is what a filter on
    [cutoff <= t] keeps. *)
Lemma shift_while_filter cutoff ts :
  StronglySorted Z.le ts →
  Naive.shift_while cutoff ts = filter (λ t, cutoff <= t) ts.
Proof.
  induction 1 as [|t rest Hsorted IH Hall]; [reflexivity|].
  cbn [Naive.shift_while]. rewrite filter_cons.
  destruct (Z.ltb_spec t cutoff) as [Hlt|Hge].
  - rewrite decide_False by lia. exact IH.
  - rewrite decide_True by exact Hge. f_equal.
    clear IH Hsorted. induction Hall as [|x l Hx Hl IHl]; [reflexivity|].
    rewrite filter_cons, decide_True by lia. f_equal. exact IHl.
Qed.

(** C2, amended: when the clock never goes back, the pruning at the start of
    a [consume] or [count] call at time [nowMs] retains exactly the recorded
    timestamps [t] with [t >= nowMs - windowMs]: a timestamp equal to the
    cutoff is retained and only timestamps strictly below it are removed,
    in the array and in the live part of the ring buffer alike; so every
    retained timestamp satisfies [t >= nowMs - windowMs], and the log is
    non-decreasing. *)
Theorem pruned_log_within_window
    (maxRequestsParam windowMsParam : Q) (ops : list op) (nowMs : Z) :
  let cfg := normalize maxRequestsParam windowMsParam in
  StronglySorted Z.le (clock_readings ops ++ [nowMs]) →
  Naive.prune cfg nowMs (Naive.run cfg ops).2
    = filter (λ t, nowMs - windowMs cfg <= t) (Naive.run cfg ops).2
  ∧ Ring.live (Ring.prune cfg nowMs (Ring.run cfg ops).2)
    = filter (λ t, nowMs - windowMs cfg <= t) (Ring.live (Ring.run cfg ops).2)
  ∧ (∀ t, t ∈ (Naive.run cfg ops).2 →
       (t ∈ Naive.prune cfg nowMs (Naive.run cfg ops).2
        ↔ nowMs - windowMs cfg <= t))
  ∧ Forall (λ t, nowMs - windowMs cfg <= t)
           (Naive.prune cfg nowMs (Naive.run cfg ops).2)
  ∧ Forall (λ t, nowMs - windowMs cfg <= t)
           (Ring.live (Ring.prune cfg nowMs (Ring.run cfg ops).2))
  ∧ StronglySorted Z.le (Naive.run cfg ops).2.
Proof.
  intros cfg Hclock.
  assert (Hsorted : StronglySorted Z.le (Naive.run cfg ops).2).
  { apply (StronglySorted_app_1_l _ _ [nowMs]).
    apply naive_exec_sorted. exact Hclock. }
  assert (Hfilter : Naive.prune cfg nowMs (Naive.run cfg ops).2
                    = filter (λ t, nowMs - windowMs cfg <= t) (Naive.run cfg ops).2).
  { apply shift_while_filter, Hsorted. }
  assert (Hnaive : Forall (λ t, nowMs - windowMs cfg <= t)
                          (Naive.prune cfg nowMs (Naive.run cfg ops).2)).
  { apply shift_while_sorted, Hsorted. }
  assert (Hinit : head_in_range Ring.init) by (unfold head_in_range; simpl; lia).
  destruct (exec_simulation cfg ops Ring.init Hinit) as [_ Hlive].
  pose proof (exec_head_in_range cfg ops Ring.init Hinit) as Hwf.
  destruct (prune_simulation cfg nowMs _ Hwf) as [Hp _].
  split; [exact Hfilter|].
  split; [unfold Ring.run; rewrite Hp, Hlive; exact Hfilter|].
  split.
  { intros t Ht. rewrite Hfilter, list_elem_of_filter. tauto. }
  split; [exact Hnaive|]. split; [|exact Hsorted].
  unfold Ring.run. rewrite Hp, Hlive. exact Hnaive.
Qed.

(** Requests at 0, 400 and 900, then a call at 1000 in a window of 1000 ms:
    all three are retained, the first one on the boundary; at 1001 the first
    one, now strictly older than the cutoff, is removed. *)
Lemma pruned_log_within_window_witness :
  let cfg := normalize 5%Q 1000%Q in
  let ops := [Consume 0; Consume 400; Consume 900] in
  (Naive.prune cfg 1000 (Naive.run cfg ops).2 = [0; 400; 900]
   ∧ Ring.live (Ring.prune cfg 1000 (Ring.run cfg ops).2) = [0; 400; 900]
   ∧ 0 ∈ Naive.prune cfg 1000 (Naive.run cfg ops).2)
  ∧ (Naive.prune cfg 1001 (Naive.run cfg ops).2 = [400; 900]
     ∧ Ring.live (Ring.prune cfg 1001 (Ring.run cfg ops).2) = [400; 900]).
Proof.
  intros cfg ops. split.
  - destruct (pruned_log_within_window 5%Q 1000%Q ops 1000)
      as (Hnaive & Hring & Hmem & _).
    { vm_compute. repeat constructor; discriminate. }
    split; [exact (eq_trans Hnaive eq_refl)|].
    split; [exact (eq_trans Hring eq_refl)|].
    apply Hmem; [vm_compute; left | vm_compute; discriminate].
  - destruct (pruned_log_within_window 5%Q 1000%Q ops 1001)
      as (Hnaive & Hring & _).
    { vm_compute. repeat constructor; discriminate. }
    split; [exact (eq_trans Hnaive eq_refl) | exact (eq_trans Hring eq_refl)].
Defined.

(** ** Bounds on the log and on the answers *)

Lemma shift_while_length cutoff ts :
  (length (Naive.shift_while cutoff ts) ≤ length ts)%nat.
Proof.
  destruct (shift_while_suffix cutoff ts) as (dead & Heq & _).
  rewrite Heq at 2. rewrite length_app. lia.
Qed.

Lemma shift_while_head cutoff ts t rest :
  Naive.shift_while cutoff ts = t :: rest → cutoff <= t.
Proof.
  induction ts as [|x ts IH]; simpl; [discriminate|].
  destruct (Z.ltb_spec x cutoff) as [Hlt|Hge]; [exact IH|].
  intros [= -> _]. exact Hge.
Qed.

Lemma shift_while_all_dead cutoff ts :
  Forall (λ t, t < cutoff) ts → Naive.shift_while cutoff ts = [].
Proof.
  induction 1 as [|t ts Ht _ IH]; simpl; [reflexivity|].
  destruct (Z.ltb_spec t cutoff); [exact IH | lia].
Qed.

(** What a good answer looks like, given the log length [n] it leaves. *)
Definition output_in_range (cfg : config) (out : output) : Prop :=
  match out with
  | Consumed v =>
      0 <= remaining v <= maxRequests cfg - 1
      ∧ 0 <= retryAfterMs v
      ∧ (allowed v = true → retryAfterMs v = 0)
      ∧ (allowed v = false → remaining v = 0)
  | ResetDone => True
  | Counted n => 0 <= n <= maxRequests cfg
  end.

Lemma naive_step_in_range cfg ts o :
  1 <= maxRequests cfg →
  Z.of_nat (length ts) <= maxRequests cfg →
  output_in_range cfg (Naive.step cfg ts o).1
  ∧ Z.of_nat (length (Naive.step cfg ts o).2) <= maxRequests cfg.
Proof.
  intros Hmax Hlen. destruct o as [t| |t]; unfold Naive.step.
  - unfold Naive.consume, Naive.prune.
    pose proof (shift_while_length (t - windowMs cfg) ts) as Hshift.
    set (keep := Naive.shift_while (t - windowMs cfg) ts) in *.
    destruct (Z.leb_spec (maxRequests cfg) (Z.of_nat (length keep))); cbn [fst snd].
    + simpl. split; [|lia]. repeat split; first [lia | discriminate].
    + simpl. rewrite length_app. simpl. split; [|lia].
      repeat split; first [lia | discriminate].
  - simpl. split; [exact I | lia].
  - unfold Naive.count, Naive.prune.
    pose proof (shift_while_length (t - windowMs cfg) ts) as Hshift.
    cbn [fst snd]. simpl. split; lia.
Qed.

Lemma naive_exec_in_range cfg ops : ∀ ts,
  1 <= maxRequests cfg →
  Z.of_nat (length ts) <= maxRequests cfg →
  Forall (output_in_range cfg) (exec (Naive.step cfg) ts ops).1
  ∧ Z.of_nat (length (exec (Naive.step cfg) ts ops).2) <= maxRequests cfg.
Proof.
  induction ops as [|o ops IH]; intros ts Hmax Hlen; [split; [constructor | exact Hlen]|].
  destruct (naive_step_in_range cfg ts o Hmax Hlen) as [Hout Hlen1].
  cbn [exec]. destruct (Naive.step cfg ts o) as [out ts1]. cbn [fst snd] in *.
  destruct (IH ts1 Hmax Hlen1) as [Houts Hlen2].
  destruct (exec (Naive.step cfg) ts1 ops) as [outs ts2]. cbn [fst snd] in *.
  split; [constructor; assumption | exact Hlen2].
Qed.

Lemma maxRequests_normalize p q : 1 <= maxRequests (normalize p q).
Proof. simpl. unfold clamp_floor. lia. Qed.

(** X4: Whatever the clock does, every answer of either implementation is in
    range: [count()] is between 0 and [maxRequests]; an allowed [consume]
    has [retryAfterMs = 0] and [0 <= remaining <= maxRequests - 1]; a denied
    one has [remaining = 0] and [retryAfterMs >= 0].  The array never holds
    more than [maxRequests] timestamps. *)
Theorem answers_in_range (maxRequestsParam windowMsParam : Q) (ops : list op) :
  let cfg := normalize maxRequestsParam windowMsParam in
  Forall (output_in_range cfg) (Naive.run cfg ops).1
  ∧ Forall (output_in_range cfg) (Ring.run cfg ops).1
  ∧ Z.of_nat (length (Naive.run cfg ops).2) <= maxRequests cfg.
Proof.
  intros cfg.
  destruct (naive_exec_in_range cfg ops Naive.init (maxRequests_normalize _ _))
    as [Hout Hlen]; [simpl; unfold clamp_floor; lia|].
  split; [exact Hout|]. split; [|exact Hlen].
  assert (Hinit : head_in_range Ring.init) by (unfold head_in_range; simpl; lia).
  destruct (exec_simulation cfg ops Ring.init Hinit) as [Hsame _].
  unfold Ring.run. rewrite Hsame. exact Hout.
Qed.

(** ** The ring buffer stays small *)

(** At most half of the buffer is dead space. *)
Definition compact (s : Ring.state) : Prop :=
  (2 * Ring.head s ≤ length (Ring.buf s))%nat.

Lemma prune_compact cfg nowMs s :
  head_in_range s → compact (Ring.prune cfg nowMs s).
Proof.
  intros Hs. unfold Ring.prune, compact.
  pose proof (advance_bounds (length (Ring.buf s) - Ring.head s)
                (nowMs - windowMs cfg) (Ring.buf s) (Ring.head s) Hs) as Hb.
  set (h := Ring.advance _ _ _ _) in *.
  destruct (Z.ltb_spec 0 (Z.of_nat h)); simpl;
    [destruct (Z.ltb_spec (Z.of_nat (length (Ring.buf s))) (2 * Z.of_nat h)); simpl|];
    lia.
Qed.

Lemma ring_step_compact cfg s o :
  head_in_range s → compact (Ring.step cfg s o).2.
Proof.
  intros Hs. destruct o as [t| |t]; unfold Ring.step.
  - unfold Ring.consume. pose proof (prune_compact cfg t s Hs) as Hc.
    set (s1 := Ring.prune cfg t s) in *.
    destruct (maxRequests cfg <=? Ring.activeCount s1); cbn [fst snd]; [exact Hc|].
    unfold compact in *. simpl. rewrite length_app. simpl. lia.
  - unfold compact. simpl. lia.
  - unfold Ring.count. cbn [fst snd]. apply prune_compact, Hs.
Qed.

Lemma ring_exec_compact cfg ops : ∀ s,
  head_in_range s → compact s → compact (exec (Ring.step cfg) s ops).2.
Proof.
  induction ops as [|o ops IH]; intros s Hs Hc; [exact Hc|].
  pose proof (ring_step_compact cfg s o Hs) as Hc1.
  destruct (step_simulation cfg s o Hs) as (_ & _ & Hs1).
  cbn [exec]. destruct (Ring.step cfg s o) as [out s1]. cbn [fst snd] in *.
  specialize (IH s1 Hs1 Hc1).
  destruct (exec (Ring.step cfg) s1 ops) as [outs s2]. exact IH.
Qed.

(** X5: Compaction keeps the buffer within twice the limit: after any program,
    whatever the clock does, the head is within the buffer, at most half of
    the buffer is dead space, and the buffer holds at most
    [2 * maxRequests] numbers. *)
Theorem ring_buffer_bounded (maxRequestsParam windowMsParam : Q) (ops : list op) :
  let cfg := normalize maxRequestsParam windowMsParam in
  let s := (Ring.run cfg ops).2 in
  (Ring.head s ≤ length (Ring.buf s))%nat
  ∧ (2 * Ring.head s ≤ length (Ring.buf s))%nat
  ∧ Z.of_nat (length (Ring.buf s)) <= 2 * maxRequests cfg.
Proof.
  intros cfg s.
  assert (Hinit : head_in_range Ring.init) by (unfold head_in_range; simpl; lia).
  pose proof (exec_head_in_range cfg ops Ring.init Hinit) as Hs.
  assert (Hc : compact s).
  { apply ring_exec_compact; [exact Hinit | unfold compact; simpl; lia]. }
  destruct (exec_simulation cfg ops Ring.init Hinit) as [_ Hlive].
  destruct (naive_exec_in_range cfg ops Naive.init (maxRequests_normalize _ _))
    as [_ Hlen]; [simpl; unfold clamp_floor; lia|].
  fold (Ring.run cfg ops) in Hs, Hlive. fold s in Hs, Hlive.
  change (Ring.live Ring.init) with Naive.init in Hlive.
  rewrite <- Hlive in Hlen. unfold Ring.live in Hlen. rewrite length_drop in Hlen.
  unfold head_in_range, compact in *. split; [exact Hs|]. split; [exact Hc|]. lia.
Qed.

(** ** What the limiter guarantees over time *)

(** The time of a request that was let through. *)
Definition accepted_time (o : op) (out : output) : option Z :=
  match o, out with
  | Consume t, Consumed v => if allowed v then Some t else None
  | _, _ => None
  end.

(** The times of the requests a program gets accepted, from log [ts] on. *)
Fixpoint accepted_from (cfg : config) (ts : list Z) (ops : list op) : list Z :=
  match ops with
  | [] => []
  | o :: ops' =>
      let '(out, ts1) := Naive.step cfg ts o in
      match accepted_time o out with
      | Some t => t :: accepted_from cfg ts1 ops'
      | None => accepted_from cfg ts1 ops'
      end
  end.

Definition accepted (cfg : config) (ops : list op) : list Z :=
  accepted_from cfg Naive.init ops.

(** The accepted requests that fall in the closed interval of length
    [windowMs] starting at [lo]. *)
Definition in_window (cfg : config) (lo : Z) (times : list Z) : list Z :=
  filter (λ t, lo <= t <= lo + windowMs cfg) times.

Definition no_reset (ops : list op) : Prop := Forall (λ o, o ≠ Reset) ops.

Lemma filter_none (P : Z → Prop) `{∀ x, Decision (P x)} (l : list Z) :
  (∀ x, x ∈ l → ¬ P x) → filter P l = [].
Proof.
  intros Hnone. destruct (filter P l) as [|x rest] eqn:Hf; [reflexivity|].
  assert (Hx : x ∈ filter P l) by (rewrite Hf; left).
  apply list_elem_of_filter in Hx as [HP Hin]. destruct (Hnone x Hin HP).
Qed.

(** The induction behind the window bound: [past] are the requests accepted
    so far, of which the log [ts] is the recent end; what has been pruned
    is out of reach of every window that a later request can fall in. *)
Lemma window_bound_from cfg ops : ∀ ts past dead lo,
  past = dead ++ ts →
  (∀ d r, d ∈ dead → r ∈ clock_readings ops → d < r - windowMs cfg) →
  StronglySorted Z.le (clock_readings ops) →
  no_reset ops →
  Z.of_nat (length ts) <= maxRequests cfg →
  (∀ lo', Z.of_nat (length (in_window cfg lo' past)) <= maxRequests cfg) →
  Z.of_nat (length (in_window cfg lo (past ++ accepted_from cfg ts ops)))
  <= maxRequests cfg.
Proof.
  induction ops as [|o ops IH]; intros ts past dead lo Hpast Hdead Hclock Hnr Hlen Hwin.
  - simpl. rewrite app_nil_r. apply Hwin.
  - apply Forall_cons in Hnr as [Ho Hnr].
    destruct o as [t| |t]; [| congruence |].
    + (* consume *)
      change (clock_readings (Consume t :: ops)) with (t :: clock_readings ops) in *.
      apply StronglySorted_cons in Hclock as [Hlater Hclock].
      cbn [accepted_from Naive.step]. unfold Naive.consume, Naive.prune.
      destruct (shift_while_suffix (t - windowMs cfg) ts) as (dead' & Hsplit & Hdead').
      pose proof (shift_while_length (t - windowMs cfg) ts) as Hshift.
      set (keep := Naive.shift_while (t - windowMs cfg) ts) in *.
      assert (Hdead2 : ∀ d r, d ∈ dead ++ dead' → r ∈ t :: clock_readings ops →
                              d < r - windowMs cfg).
      { intros d r Hd Hr. apply elem_of_app in Hd as [Hd|Hd].
        - apply Hdead; assumption.
        - rewrite Forall_forall in Hdead'. specialize (Hdead' d Hd). simpl in Hdead'.
          apply elem_of_cons in Hr as [->|Hr]; [lia|].
          rewrite Forall_forall in Hlater. specialize (Hlater r Hr). lia. }
      assert (Hpast2 : past = (dead ++ dead') ++ keep).
      { rewrite Hpast, Hsplit at 1. rewrite app_assoc. reflexivity. }
      destruct (Z.leb_spec (maxRequests cfg) (Z.of_nat (length keep))) as [Hfull|Hroom];
        cbn [accepted_time allowed].
      * apply (IH keep past (dead ++ dead') lo); try assumption; [|lia].
        intros d r Hd Hr. apply Hdead2; [exact Hd | right; exact Hr].
      * replace (past ++ t :: accepted_from cfg (keep ++ [t]) ops)
          with ((past ++ [t]) ++ accepted_from cfg (keep ++ [t]) ops)
          by (rewrite <- app_assoc; reflexivity).
        apply (IH (keep ++ [t]) (past ++ [t]) (dead ++ dead') lo); try assumption.
        -- rewrite Hpast2, <- !app_assoc. reflexivity.
        -- intros d r Hd Hr. apply Hdead2; [exact Hd | right; exact Hr].
        -- rewrite length_app. simpl. lia.
        -- intros lo'. unfold in_window. rewrite filter_app, length_app.
           destruct (decide (lo' <= t <= lo' + windowMs cfg)) as [Hin|Hout].
           ++ rewrite Hpast2, filter_app.
              assert (Hnone : filter (λ t0, lo' <= t0 <= lo' + windowMs cfg) (dead ++ dead') = []).
              { apply filter_none. intros d Hd Hd'.
                assert (d < t - windowMs cfg) by (apply Hdead2; [exact Hd | left]).
                lia. }
              rewrite Hnone. simpl.
              pose proof (length_filter (λ t0, lo' <= t0 <= lo' + windowMs cfg) keep).
              rewrite filter_cons, decide_True by exact Hin. simpl. lia.
           ++ rewrite filter_cons, decide_False by exact Hout. simpl.
              specialize (Hwin lo'). unfold in_window in Hwin. lia.
    + (* count *)
      change (clock_readings (Count t :: ops)) with (t :: clock_readings ops) in *.
      apply StronglySorted_cons in Hclock as [Hlater Hclock].
      cbn [accepted_from Naive.step accepted_time]. unfold Naive.count, Naive.prune.
      destruct (shift_while_suffix (t - windowMs cfg) ts) as (dead' & Hsplit & Hdead').
      pose proof (shift_while_length (t - windowMs cfg) ts) as Hshift.
      set (keep := Naive.shift_while (t - windowMs cfg) ts) in *.
      apply (IH keep past (dead ++ dead') lo); try assumption; [| |lia].
      * rewrite Hpast, Hsplit at 1. rewrite app_assoc. reflexivity.
      * intros d r Hd Hr. apply elem_of_app in Hd as [Hd|Hd].
        -- apply Hdead; [exact Hd | right; exact Hr].
        -- rewrite Forall_forall in Hdead'. specialize (Hdead' d Hd). simpl in Hdead'.
           rewrite Forall_forall in Hlater. specialize (Hlater r Hr). lia.
Qed.

(** X6: The rate limit itself: with a clock that never goes back and no
    [reset], at most [maxRequests] requests are accepted in any closed
    interval of length [windowMs], wherever the interval starts. *)
Theorem at_most_maxRequests_per_window
    (maxRequestsParam windowMsParam : Q) (ops : list op) (lo : Z) :
  let cfg := normalize maxRequestsParam windowMsParam in
  StronglySorted Z.le (clock_readings ops) →
  no_reset ops →
  Z.of_nat (length (in_window cfg lo (accepted cfg ops))) <= maxRequests cfg.
Proof.
  intros cfg Hclock Hnr.
  apply (window_bound_from cfg ops Naive.init [] [] lo); try assumption.
  - reflexivity.
  - intros d r Hd. apply elem_of_nil in Hd. destruct Hd.
  - simpl. unfold clamp_floor. lia.
  - intros lo'. simpl. unfold clamp_floor. lia.
Qed.

(** Five requests 250 ms apart against a limit of 2 per second: those at 0,
    250 and 1250 pass, and no second holds more than two of them. *)
Lemma at_most_maxRequests_per_window_witness :
  Z.of_nat (length (in_window (normalize 2%Q 1000%Q) 250
              (accepted (normalize 2%Q 1000%Q)
                 [Consume 0; Consume 250; Consume 500; Consume 750; Consume 1250])))
  <= maxRequests (normalize 2%Q 1000%Q).
Proof.
  apply (at_most_maxRequests_per_window 2%Q 1000%Q
           [Consume 0; Consume 250; Consume 500; Consume 750; Consume 1250] 250).
  - vm_compute. repeat constructor; discriminate.
  - repeat constructor; discriminate.
Defined.

(** ** The retry hint, silence, and [reset] *)

Lemma consume_denied cfg nowMs ts :
  1 <= maxRequests cfg →
  allowed (Naive.consume cfg nowMs ts).1 = false →
  ∃ oldest rest,
    (Naive.consume cfg nowMs ts).2 = oldest :: rest
    ∧ nowMs - windowMs cfg <= oldest
    ∧ maxRequests cfg <= Z.of_nat (length (oldest :: rest))
    ∧ (length (oldest :: rest) ≤ length ts)%nat
    ∧ retryAfterMs (Naive.consume cfg nowMs ts).1
      = Z.max 0 (oldest + windowMs cfg - nowMs).
Proof.
  intros Hmax. unfold Naive.consume, Naive.prune.
  pose proof (shift_while_length (nowMs - windowMs cfg) ts) as Hshift.
  destruct (Naive.shift_while (nowMs - windowMs cfg) ts) as [|oldest rest] eqn:Hkeep.
  - destruct (Z.leb_spec (maxRequests cfg) (Z.of_nat (length (@nil Z))));
      [simpl in *; lia | cbn [fst allowed]; discriminate].
  - destruct (Z.leb_spec (maxRequests cfg) (Z.of_nat (length (oldest :: rest))))
      as [Hfull|Hroom]; cbn [fst snd allowed retryAfterMs]; [|discriminate].
    intros _. exists oldest, rest. apply shift_while_head in Hkeep.
    repeat split; assumption.
Qed.

Lemma consume_full cfg nowMs oldest rest :
  maxRequests cfg <= Z.of_nat (length (oldest :: rest)) →
  nowMs - windowMs cfg <= oldest →
  Naive.consume cfg nowMs (oldest :: rest)
  = (mkVerdict false (Z.max 0 (oldest + windowMs cfg - nowMs)) 0, oldest :: rest).
Proof.
  intros Hfull Hold. unfold Naive.consume, Naive.prune. cbn [Naive.shift_while].
  destruct (Z.ltb_spec oldest (nowMs - windowMs cfg)); [lia|].
  destruct (Z.leb_spec (maxRequests cfg) (Z.of_nat (length (oldest :: rest)))); [|lia].
  reflexivity.
Qed.

Lemma consume_past_oldest cfg nowMs oldest rest :
  Z.of_nat (length (oldest :: rest)) <= maxRequests cfg →
  oldest < nowMs - windowMs cfg →
  allowed (Naive.consume cfg nowMs (oldest :: rest)).1 = true.
Proof.
  intros Hlen Hold. unfold Naive.consume, Naive.prune. cbn [Naive.shift_while].
  destruct (Z.ltb_spec oldest (nowMs - windowMs cfg)); [|lia].
  pose proof (shift_while_length (nowMs - windowMs cfg) rest) as Hrest.
  rewrite length_cons, Nat2Z.inj_succ in Hlen.
  destruct (Z.leb_spec (maxRequests cfg)
              (Z.of_nat (length (Naive.shift_while (nowMs - windowMs cfg) rest)))); [lia|].
  reflexivity.
Qed.

(** X7: A denied request is told to wait until the oldest entry reaches the far
    edge of the window, but an entry on that edge is still counted: with
    nothing else calling in between, a retry exactly [retryAfterMs] later
    is denied once more (now with [retryAfterMs = 0]) and leaves the log
    alone, while a retry one millisecond after that is allowed. *)
Theorem retry_hint_lands_on_boundary
    (maxRequestsParam windowMsParam : Q) (ops : list op) (nowMs : Z) :
  let cfg := normalize maxRequestsParam windowMsParam in
  let denied := Naive.consume cfg nowMs (Naive.run cfg ops).2 in
  allowed denied.1 = false →
  Naive.consume cfg (nowMs + retryAfterMs denied.1) denied.2
  = (mkVerdict false 0 0, denied.2)
  ∧ allowed (Naive.consume cfg (nowMs + retryAfterMs denied.1 + 1) denied.2).1 = true.
Proof.
  intros cfg denied Hdenied.
  destruct (naive_exec_in_range cfg ops Naive.init (maxRequests_normalize _ _))
    as [_ Hlen]; [simpl; unfold clamp_floor; lia|].
  fold (Naive.run cfg ops) in Hlen.
  pose proof (maxRequests_normalize maxRequestsParam windowMsParam) as Hmax.
  fold cfg in Hmax.
  destruct (consume_denied cfg nowMs (Naive.run cfg ops).2 Hmax Hdenied)
    as (oldest & rest & Hlog & Hold & Hfull & Hshort & Hretry).
  fold denied in Hlog, Hretry. rewrite Hlog, Hretry.
  replace (nowMs + Z.max 0 (oldest + windowMs cfg - nowMs)) with (oldest + windowMs cfg)
    by lia.
  split.
  - rewrite consume_full by (try exact Hfull; lia). do 2 f_equal. lia.
  - apply consume_past_oldest; lia.
Qed.

(** The scenario of the specification: the request at 1400 is told to wait
    600 ms; at 2000 it is still denied, at 2001 it passes. *)
Lemma retry_hint_lands_on_boundary_witness :
  Naive.consume (normalize 2%Q 1000%Q) 2000
    (Naive.consume (normalize 2%Q 1000%Q) 1400
       (Naive.run (normalize 2%Q 1000%Q) [Consume 1000; Consume 1300]).2).2
  = (mkVerdict false 0 0, [1000; 1300])
  ∧ allowed (Naive.consume (normalize 2%Q 1000%Q) 2001
               (Naive.consume (normalize 2%Q 1000%Q) 1400
                  (Naive.run (normalize 2%Q 1000%Q) [Consume 1000; Consume 1300]).2).2).1
    = true.
Proof.
  apply (retry_hint_lands_on_boundary 2%Q 1000%Q [Consume 1000; Consume 1300] 1400).
  vm_compute. reflexivity.
Defined.

(** Every timestamp in the log is the clock reading of some call. *)
Lemma naive_exec_log_from_clock cfg ops : ∀ ts (P : Z → Prop),
  Forall P ts → Forall P (clock_readings ops) →
  Forall P (exec (Naive.step cfg) ts ops).2.
Proof.
  induction ops as [|o ops IH]; intros ts P Hts Hclock; [exact Hts|].
  cbn [exec].
  assert (Hstep : Forall P (Naive.step cfg ts o).2
                  ∧ Forall P (clock_readings ops)).
  { destruct o as [t| |t]; unfold Naive.step.
    - change (clock_readings (Consume t :: ops)) with (t :: clock_readings ops) in Hclock.
      apply Forall_cons in Hclock as [Ht Hclock]. split; [|exact Hclock].
      unfold Naive.consume, Naive.prune.
      destruct (shift_while_suffix (t - windowMs cfg) ts) as (dead & Hsplit & _).
      rewrite Hsplit in Hts. apply Forall_app in Hts as [_ Hkeep].
      destruct (maxRequests cfg <=? _); cbn [fst snd]; [exact Hkeep|].
      apply Forall_app. split; [exact Hkeep | constructor; [exact Ht | constructor]].
    - split; [constructor | exact Hclock].
    - change (clock_readings (Count t :: ops)) with (t :: clock_readings ops) in Hclock.
      apply Forall_cons in Hclock as [_ Hclock]. split; [|exact Hclock].
      unfold Naive.count, Naive.prune. cbn [fst snd].
      destruct (shift_while_suffix (t - windowMs cfg) ts) as (dead & Hsplit & _).
      rewrite Hsplit in Hts. apply Forall_app in Hts as [_ Hkeep]. exact Hkeep. }
  destruct Hstep as [Hts1 Hclock1].
  destruct (Naive.step cfg ts o) as [out ts1]. cbn [fst snd] in *.
  specialize (IH ts1 P Hts1 Hclock1).
  destruct (exec (Naive.step cfg) ts1 ops) as [outs ts2]. exact IH.
Qed.

(** X8: After a silence longer than the window the limiter has forgotten
    everything: if every earlier call read the clock more than [windowMs]
    before [nowMs], then [count()] at [nowMs] is 0 and empties the log, and
    a [consume] at [nowMs] is allowed with [maxRequests - 1] remaining. *)
Theorem silence_clears_the_window
    (maxRequestsParam windowMsParam : Q) (ops : list op) (nowMs : Z) :
  let cfg := normalize maxRequestsParam windowMsParam in
  Forall (λ t, t + windowMs cfg < nowMs) (clock_readings ops) →
  Naive.count cfg nowMs (Naive.run cfg ops).2 = (0, [])
  ∧ Naive.consume cfg nowMs (Naive.run cfg ops).2
    = (mkVerdict true 0 (maxRequests cfg - 1), [nowMs]).
Proof.
  intros cfg Hquiet.
  pose proof (maxRequests_normalize maxRequestsParam windowMsParam) as Hmax.
  fold cfg in Hmax.
  assert (Hdead : Naive.prune cfg nowMs (Naive.run cfg ops).2 = []).
  { apply shift_while_all_dead.
    apply (naive_exec_log_from_clock cfg ops Naive.init
             (λ t, t < nowMs - windowMs cfg)); [constructor|].
    eapply Forall_impl; [exact Hquiet|]. intros t Ht. cbv beta in *. lia. }
  unfold Naive.count, Naive.consume. rewrite Hdead.
  change (Z.of_nat (length (@nil Z))) with 0.
  split; [reflexivity|].
  destruct (Z.leb_spec (maxRequests cfg) 0); [lia|].
  change (Z.of_nat (length ([] ++ [nowMs]))) with 1.
  cbn [app]. do 2 f_equal. lia.
Qed.

(** A limiter filled at 0 and 100 is empty again at 1101. *)
Lemma silence_clears_the_window_witness :
  Naive.count (normalize 2%Q 1000%Q) 1101
    (Naive.run (normalize 2%Q 1000%Q) [Consume 0; Consume 100; Consume 100]).2
  = (0, [])
  ∧ Naive.consume (normalize 2%Q 1000%Q) 1101
      (Naive.run (normalize 2%Q 1000%Q) [Consume 0; Consume 100; Consume 100]).2
    = (mkVerdict true 0 (maxRequests (normalize 2%Q 1000%Q) - 1), [1101]).
Proof.
  apply (silence_clears_the_window 2%Q 1000%Q [Consume 0; Consume 100; Consume 100] 1101).
  vm_compute. repeat constructor.
Defined.

Lemma exec_app {S A O : Type} (step : S → A → O * S) (ops1 ops2 : list A) : ∀ s,
  exec step s (ops1 ++ ops2)
  = ((exec step s ops1).1 ++ (exec step (exec step s ops1).2 ops2).1,
     (exec step (exec step s ops1).2 ops2).2).
Proof.
  induction ops1 as [|o ops1 IH]; intros s.
  - simpl. destruct (exec step s ops2); reflexivity.
  - cbn [app exec]. destruct (step s o) as [out s1]. rewrite IH.
    destruct (exec step s1 ops1) as [outs1 s2]. cbn [fst snd].
    destruct (exec step s2 ops2) as [outs2 s3]. reflexivity.
Qed.

(** X9: [reset()] gives a new limiter: whatever came before, the calls after a
    [reset] are answered as a freshly constructed limiter would answer
    them, in both implementations. *)
Theorem reset_starts_afresh
    (maxRequestsParam windowMsParam : Q) (before after : list op) :
  let cfg := normalize maxRequestsParam windowMsParam in
  (Naive.run cfg (before ++ Reset :: after)).1
  = (Naive.run cfg before).1 ++ ResetDone :: (Naive.run cfg after).1
  ∧ (Ring.run cfg (before ++ Reset :: after)).1
    = (Ring.run cfg before).1 ++ ResetDone :: (Ring.run cfg after).1
  ∧ (Naive.run cfg (before ++ Reset :: after)).2 = (Naive.run cfg after).2
  ∧ (Ring.run cfg (before ++ Reset :: after)).2 = (Ring.run cfg after).2.
Proof.
  intros cfg. unfold Naive.run, Ring.run. rewrite !exec_app. cbn [fst snd exec].
  cbn [Naive.step Ring.step Naive.reset Ring.reset].
  change (Naive.reset (exec (Naive.step cfg) Naive.init before).2) with Naive.init.
  change (Ring.reset (exec (Ring.step cfg) Ring.init before).2) with Ring.init.
  destruct (exec (Naive.step cfg) Naive.init after) as [o1 s1].
  destruct (exec (Ring.step cfg) Ring.init after) as [o2 s2].
  repeat split.
Qed.

End RateLimiter.

(* ================================================================== *)
(** * LRU cache with TTL ([lru-cache.ts]) *)
(* ================================================================== *)

Module LruCache.

Section Cache.
Context {V : Type}.

Record Entry : Type := mkEntry {
  value : V;
  expiresAt : Z;
}.

(** A JavaScript [Map] with string keys: its entries in insertion order,
    oldest first, one entry per key. *)
Abbreviation jsmap := (list (string * Entry)).

Fixpoint map_get (key : string) (m : jsmap) : option Entry :=
  match m with
  | [] => None
  | (k, e) :: m' => if decide (k = key) then Some e else map_get key m'
  end.

(** [Map.prototype.delete]: whether the key was there, and the map without it. *)
Definition map_delete (key : string) (m : jsmap) : bool * jsmap :=
  (bool_decide (is_Some (map_get key m)), filter (λ p, p.1 ≠ key) m).

(** [Map.prototype.set]: a present key keeps its place, a new one goes last. *)
Fixpoint map_set (key : string) (e : Entry) (m : jsmap) : jsmap :=
  match m with
  | [] => [(key, e)]
  | (k, e0) :: m' =>
      if decide (k = key) then (k, e) :: m' else (k, e0) :: map_set key e m'
  end.

Definition map_size (m : jsmap) : Z := Z.of_nat (length m).
Definition map_keys (m : jsmap) : list string := m.*1.

(** The closure state of [createLruCache]: two constants and the [Map]. *)
Record cache : Type := mkCache {
  maxSize : Z;
  ttlMs : Z;
  map : jsmap;
}.

(** [ttlMs] is [None] when the option is omitted. *)
Definition createLruCache (maxSizeOption : Q) (ttlMsOption : option Q) : cache :=
  {| maxSize := clamp_floor 1 maxSizeOption;
     ttlMs := match ttlMsOption with
              | Some t => if Qle_bool t 0 then 0 else Qfloor t
              | None => 0
              end;
     map := [] |}.

Definition isExpired (now : Z) (entry : Entry) : bool :=
  (0 <? expiresAt entry) && (expiresAt entry <=? now).

Definition touch (key : string) (entry : Entry) (m : jsmap) : jsmap :=
  map_set key entry (map_delete key m).2.

Definition evictOldest (m : jsmap) : jsmap :=
  match map_keys m with
  | [] => m
  | oldest :: _ => (map_delete oldest m).2
  end.

(** [while (map.size > maxSize) evictOldest()], one unit of fuel per
    iteration. *)
Fixpoint evict_loop (fuel : nat) (maxSize : Z) (m : jsmap) : jsmap :=
  match fuel with
  | O => m
  | S fuel' =>
      if maxSize <? map_size m
      then evict_loop fuel' maxSize (evictOldest m)
      else m
  end.

Definition with_map (c : cache) (m : jsmap) : cache :=
  {| maxSize := maxSize c; ttlMs := ttlMs c; map := m |}.

(** The operations; [now] is what the clock returns if the call reads it. *)
Definition get (now : Z) (key : string) (c : cache) : option V * cache :=
  match map_get key (map c) with
  | None => (None, c)
  | Some entry =>
      if isExpired now entry
      then (None, with_map c (map_delete key (map c)).2)
      else (Some (value entry), with_map c (touch key entry (map c)))
  end.

Definition set (now : Z) (key : string) (v : V) (c : cache) : cache :=
  let m := match map_get key (map c) with
           | Some _ => (map_delete key (map c)).2
           | None => map c
           end in
  let expires := if 0 <? ttlMs c then now + ttlMs c else 0 in
  let m := map_set key (mkEntry v expires) m in
  with_map c (evict_loop (length m) (maxSize c) m).

Definition has (now : Z) (key : string) (c : cache) : bool * cache :=
  match map_get key (map c) with
  | None => (false, c)
  | Some entry =>
      if isExpired now entry
      then (false, with_map c (map_delete key (map c)).2)
      else (true, c)
  end.

Definition delete (key : string) (c : cache) : bool * cache :=
  let '(found, m) := map_delete key (map c) in (found, with_map c m).

Definition clear (c : cache) : cache := with_map c [].

Definition size (c : cache) : Z := map_size (map c).

Definition keys (c : cache) : list string := map_keys (map c).

(** The calls that can change the map. *)
Inductive op : Type :=
| OpSet (now : Z) (key : string) (v : V)
| OpGet (now : Z) (key : string)
| OpHas (now : Z) (key : string)
| OpDelete (key : string)
| OpClear.

Definition step (c : cache) (o : op) : cache :=
  match o with
  | OpSet now key v => set now key v c
  | OpGet now key => (get now key c).2
  | OpHas now key => (has now key c).2
  | OpDelete key => (delete key c).2
  | OpClear => clear c
  end.

(** ** Facts about the [Map] *)

Lemma map_get_None key (m : jsmap) : map_get key m = None ↔ key ∉ map_keys m.
Proof.
  unfold map_keys. induction m as [|[k e] m IH]; simpl.
  - split; [intros _; apply not_elem_of_nil | reflexivity].
  - rewrite not_elem_of_cons. destruct (decide (k = key)) as [->|Hne].
    + split; [discriminate | intros [Hk _]; congruence].
    + rewrite IH. split; [intros H; split; [congruence | exact H] | intros [_ H]; exact H].
Qed.

Lemma map_get_Some_elem key e (m : jsmap) :
  map_get key m = Some e → (key, e) ∈ m.
Proof.
  induction m as [|[k e0] m IH]; simpl; [discriminate|].
  destruct (decide (k = key)) as [->|Hne].
  - intros [= ->]. left.
  - intros H. right. apply IH, H.
Qed.

Lemma map_keys_delete key (m : jsmap) :
  map_keys (map_delete key m).2 = filter (λ k, k ≠ key) (map_keys m).
Proof.
  unfold map_keys, map_delete; simpl.
  induction m as [|[k e] m IH]; [reflexivity|].
  rewrite fmap_cons, !filter_cons. cbn [fst].
  destruct (decide (k ≠ key)); [rewrite fmap_cons; cbn [fst]; f_equal|]; exact IH.
Qed.

Lemma map_get_delete key (m : jsmap) : map_get key (map_delete key m).2 = None.
Proof.
  apply map_get_None. rewrite map_keys_delete.
  intros Hin. apply list_elem_of_filter in Hin as [Hne _]. congruence.
Qed.

Lemma length_map_delete key (m : jsmap) :
  (length (map_delete key m).2 ≤ length m)%nat.
Proof. apply length_filter. Qed.

Lemma length_map_delete_present key e (m : jsmap) :
  map_get key m = Some e → (length (map_delete key m).2 < length m)%nat.
Proof.
  intros Hget. unfold map_delete; simpl.
  apply (length_filter_lt _ _ (key, e)).
  - apply map_get_Some_elem, Hget.
  - simpl. intros Hne. apply Hne. reflexivity.
Qed.

Lemma length_map_set key e (m : jsmap) :
  length (map_set key e m)
  = match map_get key m with Some _ => length m | None => S (length m) end.
Proof.
  induction m as [|[k e0] m IH]; simpl; [reflexivity|].
  destruct (decide (k = key)); simpl; [reflexivity|].
  rewrite IH. destruct (map_get key m); reflexivity.
Qed.

Lemma map_keys_set_absent key e (m : jsmap) :
  map_get key m = None → map_keys (map_set key e m) = map_keys m ++ [key].
Proof.
  unfold map_keys. induction m as [|[k e0] m IH]; cbn [map_get map_set]; [reflexivity|].
  destruct (decide (k = key)); [discriminate|].
  intros H. rewrite !fmap_cons, (IH H). reflexivity.
Qed.

Lemma length_touch key e entry (m : jsmap) :
  map_get key m = Some e → (length (touch key entry m) ≤ length m)%nat.
Proof.
  intros Hget. unfold touch. rewrite length_map_set, map_get_delete.
  pose proof (length_map_delete_present key e m Hget). lia.
Qed.

Lemma length_evictOldest (m : jsmap) :
  m ≠ [] → (length (evictOldest m) < length m)%nat.
Proof.
  destruct m as [|[k e] m]; [congruence|]. intros _.
  unfold evictOldest; simpl map_keys; cbv iota.
  apply (length_map_delete_present k e). simpl.
  destruct (decide (k = k)); [reflexivity | congruence].
Qed.

(** With fuel for every entry the loop ends with its condition false. *)
Lemma evict_loop_bound fuel : ∀ bound (m : jsmap),
  0 <= bound → (length m ≤ fuel)%nat →
  map_size (evict_loop fuel bound m) <= bound.
Proof.
  induction fuel as [|fuel IH]; intros bound m Hbound Hfuel; cbn [evict_loop].
  - unfold map_size. lia.
  - destruct (Z.ltb_spec bound (map_size m)) as [Hgt|Hle]; [|exact Hle].
    apply IH; [exact Hbound|]. unfold map_size in Hgt.
    assert (Hne : m ≠ []) by (destruct m; simpl in *; [lia | discriminate]).
    pose proof (length_evictOldest m Hne). lia.
Qed.

(** ** The size bound *)

Definition size_bounded (c : cache) : Prop := size c <= maxSize c.

Lemma maxSize_step c o : maxSize (step c o) = maxSize c.
Proof.
  destruct o as [now key v|now key|now key|key|]; unfold step; simpl.
  - reflexivity.
  - unfold get. destruct (map_get key (map c)) as [e|]; [|reflexivity].
    destruct (isExpired now e); reflexivity.
  - unfold has. destruct (map_get key (map c)) as [e|]; [|reflexivity].
    destruct (isExpired now e); reflexivity.
  - reflexivity.
  - reflexivity.
Qed.

Lemma size_bounded_step c o :
  1 <= maxSize c → size_bounded c → size_bounded (step c o).
Proof.
  unfold size_bounded, size, map_size. intros Hmax Hc.
  destruct o as [now key v|now key|now key|key|]; unfold step.
  - unfold set. simpl maxSize. simpl map.
    apply evict_loop_bound; [lia | apply le_n].
  - unfold get. destruct (map_get key (map c)) as [e|] eqn:Hget; [|exact Hc].
    destruct (isExpired now e); simpl.
    + pose proof (length_map_delete key (map c)). simpl in *. lia.
    + pose proof (length_touch key e e (map c) Hget). lia.
  - unfold has. destruct (map_get key (map c)) as [e|] eqn:Hget; [|exact Hc].
    destruct (isExpired now e); simpl; [|exact Hc].
    pose proof (length_map_delete key (map c)). simpl in *. lia.
  - unfold delete. simpl.
    pose proof (length_map_delete key (map c)). simpl in *. lia.
  - simpl. lia.
Qed.

Lemma size_bounded_trajectory ops : ∀ c,
  1 <= maxSize c → size_bounded c →
  Forall (λ c', size_bounded c' ∧ maxSize c' = maxSize c) (trajectory step c ops).
Proof.
  induction ops as [|o ops IH]; intros c Hmax Hc; simpl; [constructor|].
  pose proof (size_bounded_step c o Hmax Hc) as Hc'.
  pose proof (maxSize_step c o) as Hm.
  constructor; [split; assumption|].
  eapply Forall_impl; [apply IH; [lia | exact Hc']|].
  intros c' [H1 H2]. split; [exact H1 | congruence].
Qed.

(** C8: whatever [maxSize] is asked for, after every call of [set], [get],
    [has], [delete] and [clear] in any program on a new cache, [size()] is
    at most [maxSize], the requested bound clamped to at least 1. *)
Theorem size_never_exceeds_maxSize
    (maxSizeOption : Q) (ttlMsOption : option Q) (ops : list op) :
  Forall (λ c, size c <= maxSize c ∧ maxSize c = Z.max 1 (Qfloor maxSizeOption))
         (trajectory step (createLruCache maxSizeOption ttlMsOption) ops).
Proof.
  eapply Forall_impl.
  - apply size_bounded_trajectory.
    + simpl. unfold clamp_floor. lia.
    + unfold size_bounded, size, map_size. simpl. unfold clamp_floor. lia.
  - intros c [Hb Hm]. split; [exact Hb | exact Hm].
Qed.

(** ** [has] and [delete] *)

Lemma isExpired_true now entry :
  isExpired now entry = true ↔ 0 < expiresAt entry ∧ expiresAt entry <= now.
Proof. unfold isExpired. rewrite andb_true_iff, Z.ltb_lt, Z.leb_le. reflexivity. Qed.

Lemma filter_absent (key : string) (l : list string) :
  key ∉ l → filter (λ k, k ≠ key) l = l.
Proof.
  induction l as [|k l IH]; [reflexivity|].
  rewrite not_elem_of_cons. intros [Hne Hl]. rewrite filter_cons.
  destruct (decide (k ≠ key)) as [_|Heq]; [rewrite (IH Hl); reflexivity|].
  exfalso. apply Heq. congruence.
Qed.

(** C6, amended: [has(key)] answers [true] exactly when the key is present
    and its entry is not expired, by the expiry test of [get] (expired:
    [expiresAt > 0] and [now >= expiresAt]).  It never promotes or reorders:
    a [true] answer leaves the cache as it was, and otherwise [keys()] is
    what it was before, less the probed key (which [has] removes when its
    entry has expired); the remaining keys keep their relative order. *)
Theorem has_probes_without_reordering (c : cache) (now : Z) (key : string) :
  ((has now key c).1 = true ↔
     ∃ entry, map_get key (map c) = Some entry
              ∧ ¬ (0 < expiresAt entry ∧ expiresAt entry <= now))
  ∧ ((has now key c).1 = true ↔ is_Some (get now key c).1)
  ∧ ((has now key c).1 = true → (has now key c).2 = c)
  ∧ keys (has now key c).2
    = (if (has now key c).1 then keys c else filter (λ k, k ≠ key) (keys c))
  ∧ keys (has now key c).2 `sublist_of` keys c.
Proof.
  unfold has, get, keys.
  destruct (map_get key (map c)) as [entry|] eqn:Hget.
  - pose proof (isExpired_true now entry) as Hexp.
    destruct (isExpired now entry); cbn [fst snd with_map map].
    + assert (Hkeys : map_keys (map_delete key (map c)).2
                      = filter (λ k, k ≠ key) (map_keys (map c)))
        by apply map_keys_delete.
      split; [|split; [|split; [|split]]].
      * split; [discriminate|]. intros (e & [= <-] & Hne).
        exfalso. apply Hne, Hexp. reflexivity.
      * split; [discriminate | intros [x Hx]; discriminate].
      * discriminate.
      * exact Hkeys.
      * rewrite Hkeys. apply sublist_filter.
    + split; [|split; [|split; [|split]]].
      * split; [|reflexivity]. intros _. exists entry. split; [reflexivity|].
        intros H. apply Hexp in H. discriminate.
      * split; [intros _; eexists; reflexivity | reflexivity].
      * reflexivity.
      * reflexivity.
      * reflexivity.
  - cbn [fst snd].
    split; [|split; [|split; [|split]]].
    + split; [discriminate | intros (e & He & _); discriminate].
    + split; [discriminate | intros [x Hx]; discriminate].
    + discriminate.
    + symmetry. apply filter_absent, map_get_None, Hget.
    + reflexivity.
Qed.

(** C10: [delete(key)] reports physical presence and ignores expiry.  In
    every cache state it returns [true] exactly when an entry is stored
    under the key, and [false] exactly when the key is not among [keys()];
    the clock is not read.  Afterwards no entry is stored under the key and
    the other keys are as before.  So for a key whose entry is stored but
    expired, at one and the same state and instant [delete] reports [true]
    while [get] finds nothing and [has] answers [false]. *)
Theorem delete_ignores_expiry (c : cache) (now : Z) (key : string) :
  ((delete key c).1 = true ↔ is_Some (map_get key (map c)))
  ∧ ((delete key c).1 = false ↔ key ∉ keys c)
  ∧ map_get key (map (delete key c).2) = None
  ∧ keys (delete key c).2 = filter (λ k, k ≠ key) (keys c)
  ∧ (∀ entry, map_get key (map c) = Some entry →
       isExpired now entry = true →
       (delete key c).1 = true
       ∧ (get now key c).1 = None
       ∧ (has now key c).1 = false).
Proof.
  unfold delete, keys, map_delete. cbn [fst snd with_map map].
  split; [apply bool_decide_eq_true|].
  split.
  { rewrite bool_decide_eq_false, <- map_get_None.
    destruct (map_get key (map c)) as [e|].
    - split; [intros Hno; exfalso; apply Hno; eexists; reflexivity | discriminate].
    - split; [reflexivity | intros _ [x Hx]; discriminate]. }
  split; [apply (map_get_delete key (map c))|].
  split; [apply (map_keys_delete key (map c))|].
  intros entry Hget Hexp. unfold get, has.
  rewrite Hget, Hexp. cbn [fst snd].
  split; [|split; reflexivity].
  apply bool_decide_eq_true. eexists. reflexivity.
Qed.

(** ** Lookups after updates *)

Definition run_ops (ops : list op) (c : cache) : cache := fold_left step ops c.

Lemma map_get_filter_other (k key : string) (m : jsmap) :
  map_get key (filter (λ p, p.1 ≠ k) m)
  = if decide (k = key) then None else map_get key m.
Proof.
  induction m as [|[k0 e0] m IH].
  - simpl. destruct (decide (k = key)); reflexivity.
  - rewrite filter_cons. cbn [fst].
    destruct (decide (k0 ≠ k)) as [Hne|Heq].
    + cbn [map_get]. destruct (decide (k0 = key)) as [->|Hne'].
      * destruct (decide (k = key)); [congruence | reflexivity].
      * exact IH.
    + assert (k0 = k) as -> by (destruct (decide (k0 = k)); [assumption | contradiction]).
      rewrite IH. cbn [map_get].
      destruct (decide (k = key)); reflexivity.
Qed.

Lemma map_get_set_same key e (m : jsmap) : map_get key (map_set key e m) = Some e.
Proof.
  induction m as [|[k0 e0] m IH]; cbn [map_set map_get].
  - destruct (decide (key = key)); [reflexivity | congruence].
  - destruct (decide (k0 = key)) as [Heq|Hne]; cbn [map_get].
    + destruct (decide (k0 = key)); [reflexivity | congruence].
    + destruct (decide (k0 = key)); [congruence | exact IH].
Qed.

Lemma map_get_set_other key k e (m : jsmap) :
  k ≠ key → map_get k (map_set key e m) = map_get k m.
Proof.
  intros Hne. induction m as [|[k0 e0] m IH]; cbn [map_set map_get].
  - destruct (decide (key = k)); [congruence | reflexivity].
  - destruct (decide (k0 = key)) as [Heq|Hne']; cbn [map_get].
    + destruct (decide (k0 = k)); [congruence | reflexivity].
    + destruct (decide (k0 = k)); [reflexivity | exact IH].
Qed.

Lemma map_set_absent key e (m : jsmap) :
  map_get key m = None → map_set key e m = m ++ [(key, e)].
Proof.
  induction m as [|[k0 e0] m IH]; cbn [map_set map_get]; [reflexivity|].
  destruct (decide (k0 = key)); [discriminate|].
  intros H. rewrite (IH H). reflexivity.
Qed.

(** The loop never evicts the entry that was just put last, because the
    bound is at least one. *)
Lemma evict_loop_keeps_newest fuel : ∀ bound key e (older : jsmap),
  1 <= bound → map_get key older = None →
  ∃ older', evict_loop fuel bound (older ++ [(key, e)]) = older' ++ [(key, e)]
            ∧ map_get key older' = None
            ∧ ∀ k e', map_get k older' = Some e' → map_get k older = Some e'.
Proof.
  induction fuel as [|fuel IH]; intros bound key e older Hbound Habsent; cbn [evict_loop].
  - exists older. repeat split; [exact Habsent | intros k e' Hk; exact Hk].
  - destruct (Z.ltb_spec bound (map_size (older ++ [(key, e)]))) as [Hgt|Hle].
    + destruct older as [|[k0 e0] older].
      { unfold map_size in Hgt. simpl in Hgt. lia. }
      cbn [map_get] in Habsent.
      destruct (decide (k0 = key)) as [Heq|Hne]; [discriminate|].
      unfold evictOldest. cbn [app map_keys fmap list_fmap fst map_delete snd].
      rewrite filter_cons. cbn [fst].
      destruct (decide (k0 ≠ k0)) as [Hbad|_]; [congruence|].
      rewrite filter_app, filter_cons. cbn [fst].
      destruct (decide (key ≠ k0)) as [_|Hbad]; [|exfalso; apply Hbad; congruence].
      rewrite filter_nil.
      destruct (IH bound key e (filter (λ p, p.1 ≠ k0) older) Hbound)
        as (older' & Heq' & Habs' & Hsub).
      { rewrite map_get_filter_other. destruct (decide (k0 = key)); [reflexivity | exact Habsent]. }
      exists older'. split; [exact Heq'|]. split; [exact Habs'|].
      intros k e' Hk. specialize (Hsub k e' Hk).
      rewrite map_get_filter_other in Hsub.
      destruct (decide (k0 = k)) as [->|Hk0]; [discriminate|].
      cbn [map_get]. destruct (decide (k0 = k)); [congruence | exact Hsub].
    + exists older. repeat split; [exact Habsent | intros k e' Hk; exact Hk].
Qed.

Lemma map_get_app_absent key (m1 m2 : jsmap) :
  map_get key m1 = None → map_get key (m1 ++ m2) = map_get key m2.
Proof.
  induction m1 as [|[k0 e0] m1 IH]; cbn [app map_get]; [reflexivity|].
  destruct (decide (k0 = key)); [discriminate | exact IH].
Qed.

Lemma map_get_app_other key k e (m1 : jsmap) :
  k ≠ key → map_get k (m1 ++ [(key, e)]) = map_get k m1.
Proof.
  intros Hne. induction m1 as [|[k0 e0] m1 IH]; cbn [app map_get].
  - destruct (decide (key = k)); [congruence | reflexivity].
  - destruct (decide (k0 = k)); [reflexivity | exact IH].
Qed.

(** The map of [set] before eviction: the old entry of the key is removed
    and the new one is put last. *)
Lemma set_before_eviction now key v c :
  ∃ older,
    map (set now key v c)
    = evict_loop (S (length older)) (maxSize c)
        (older ++ [(key, mkEntry v (if 0 <? ttlMs c then now + ttlMs c else 0))])
    ∧ older = filter (λ p, p.1 ≠ key) (map c).
Proof.
  exists (filter (λ p, p.1 ≠ key) (map c)). split; [|reflexivity].
  unfold set. cbn [map with_map].
  assert (Holder : match map_get key (map c) with
                   | Some _ => (map_delete key (map c)).2
                   | None => map c
                   end = filter (λ p, p.1 ≠ key) (map c)).
  { destruct (map_get key (map c)) eqn:Hget; [reflexivity|].
    apply map_get_None in Hget. symmetry.
    induction (map c) as [|[k0 e0] m IH]; [reflexivity|].
    unfold map_keys in Hget. rewrite fmap_cons in Hget. cbn [fst] in Hget.
    apply not_elem_of_cons in Hget as [Hne Hm].
    rewrite filter_cons. cbn [fst].
    destruct (decide (k0 ≠ key)); [f_equal; apply IH, Hm | exfalso; auto]. }
  rewrite Holder.
  assert (Habsent : map_get key (filter (λ p, p.1 ≠ key) (map c)) = None).
  { rewrite map_get_filter_other. destruct (decide (key = key)); [reflexivity | congruence]. }
  rewrite (map_set_absent _ _ _ Habsent). rewrite length_app. simpl length.
  rewrite Nat.add_1_r. reflexivity.
Qed.

(** X10: Insert and look up: in a cache whose bound is at least one (every
    constructed cache), right after [set(key, v)] at time [now] the key
    holds [v] with [expiresAt = now + ttlMs] (or 0 without TTL), and a
    later [get] or [has] at time [later] finds it exactly when that entry
    has not expired. *)
Theorem set_then_get (c : cache) (now later : Z) (key : string) (v : V) :
  1 <= maxSize c →
  let c' := set now key v c in
  let entry := mkEntry v (if 0 <? ttlMs c then now + ttlMs c else 0) in
  map_get key (map c') = Some entry
  ∧ (get later key c').1 = (if isExpired later entry then None else Some v)
  ∧ (has later key c').1 = negb (isExpired later entry)
  ∧ (ttlMs c <= 0 → isExpired later entry = false)
  ∧ (0 < ttlMs c → 0 < now + ttlMs c →
       (isExpired later entry = true ↔ now + ttlMs c <= later)).
Proof.
  intros Hmax c' entry.
  destruct (set_before_eviction now key v c) as (older & Hmap & Holder).
  fold c' entry in Hmap.
  assert (Habsent : map_get key older = None).
  { rewrite Holder, map_get_filter_other.
    destruct (decide (key = key)); [reflexivity | congruence]. }
  destruct (evict_loop_keeps_newest (S (length older)) (maxSize c) key entry older
              Hmax Habsent) as (older' & Hkept & Habs' & _).
  assert (Hget : map_get key (map c') = Some entry).
  { rewrite Hmap, Hkept, (map_get_app_absent _ _ _ Habs'). cbn [map_get].
    destruct (decide (key = key)); [reflexivity | congruence]. }
  split; [exact Hget|].
  unfold get, has. rewrite Hget.
  split; [destruct (isExpired later entry); reflexivity|].
  split; [destruct (isExpired later entry); reflexivity|].
  unfold isExpired, entry. cbn [expiresAt]. split.
  - intros Httl. destruct (Z.ltb_spec 0 (ttlMs c)); [lia | reflexivity].
  - intros Httl Hpos. destruct (Z.ltb_spec 0 (ttlMs c)) as [_|Hbad]; [|lia].
    rewrite andb_true_iff, Z.ltb_lt, Z.leb_le.
    split; [intros [_ Hle]; exact Hle | intros Hle; split; lia].
Qed.

(** ** Recency order *)

Lemma filter_entries_absent (key : string) (m : jsmap) :
  key ∉ map_keys m → filter (λ p, p.1 ≠ key) m = m.
Proof.
  unfold map_keys. induction m as [|[k0 e0] m IH]; [reflexivity|].
  rewrite fmap_cons. cbn [fst]. intros [Hne Hm]%not_elem_of_cons.
  rewrite filter_cons. cbn [fst].
  destruct (decide (k0 ≠ key)) as [_|Hbad]; [f_equal; apply IH, Hm|].
  exfalso. apply Hbad. congruence.
Qed.

Lemma unique_keys_delete key (m : jsmap) :
  NoDup (map_keys m) → NoDup (map_keys (map_delete key m).2).
Proof. intros Hm. rewrite map_keys_delete. apply NoDup_filter, Hm. Qed.

Lemma unique_keys_set key e (m : jsmap) :
  NoDup (map_keys m) → NoDup (map_keys (map_set key e (map_delete key m).2)).
Proof.
  intros Hm. rewrite map_keys_set_absent by apply map_get_delete.
  apply NoDup_app. split; [apply unique_keys_delete, Hm|].
  split; [|apply NoDup_singleton].
  intros k Hk Hk'. apply list_elem_of_singleton in Hk'. subst k.
  rewrite map_keys_delete in Hk. apply list_elem_of_filter in Hk as [Hne _]. congruence.
Qed.

Lemma unique_keys_evictOldest (m : jsmap) :
  NoDup (map_keys m) → NoDup (map_keys (evictOldest m)).
Proof.
  intros Hm. unfold evictOldest. destruct (map_keys m) eqn:Hk; [rewrite Hk; constructor|].
  rewrite <- Hk in Hm. apply unique_keys_delete, Hm.
Qed.

Lemma unique_keys_evict_loop fuel : ∀ bound (m : jsmap),
  NoDup (map_keys m) → NoDup (map_keys (evict_loop fuel bound m)).
Proof.
  induction fuel as [|fuel IH]; intros bound m Hm; cbn [evict_loop]; [exact Hm|].
  destruct (bound <? map_size m); [|exact Hm].
  apply IH, unique_keys_evictOldest, Hm.
Qed.

Lemma unique_keys_step c o : NoDup (keys c) → NoDup (keys (step c o)).
Proof.
  unfold keys. intros Hc. destruct o as [now key v|now key|now key|key|]; unfold step.
  - destruct (set_before_eviction now key v c) as (older & Hmap & Holder).
    rewrite Hmap. apply unique_keys_evict_loop.
    unfold map_keys. rewrite fmap_app. apply NoDup_app.
    assert (Hkeys : older.*1 = filter (λ k, k ≠ key) (map_keys (map c))).
    { rewrite Holder. apply (map_keys_delete key (map c)). }
    split; [rewrite Hkeys; apply NoDup_filter, Hc|].
    split; [|apply NoDup_singleton].
    intros k Hk Hk'. apply list_elem_of_singleton in Hk'. cbn [fst] in Hk'. subst k.
    rewrite Hkeys in Hk. apply list_elem_of_filter in Hk as [Hne _]. congruence.
  - unfold get. destruct (map_get key (map c)) as [e|]; [|exact Hc].
    destruct (isExpired now e); cbn [snd map with_map].
    + apply unique_keys_delete, Hc.
    + apply unique_keys_set, Hc.
  - unfold has. destruct (map_get key (map c)) as [e|]; [|exact Hc].
    destruct (isExpired now e); cbn [snd map with_map]; [|exact Hc].
    apply unique_keys_delete, Hc.
  - unfold delete. cbn [snd map with_map map_delete]. apply (unique_keys_delete key), Hc.
  - constructor.
Qed.

(** What holds of every cache a program can build. *)
Record well_formed (c : cache) : Prop := {
  wf_bound : 1 <= maxSize c;
  wf_size : size c <= maxSize c;
  wf_unique : NoDup (keys c);
}.

Lemma well_formed_run_ops ops : ∀ c, well_formed c → well_formed (run_ops ops c).
Proof.
  induction ops as [|o ops IH]; intros c Hc; [exact Hc|].
  apply IH. destruct Hc as [Hb Hs Hu]. constructor.
  - rewrite maxSize_step. exact Hb.
  - apply size_bounded_step; assumption.
  - apply unique_keys_step, Hu.
Qed.

Lemma well_formed_create p q : well_formed (createLruCache p q).
Proof.
  constructor; simpl; unfold clamp_floor, size, map_size; simpl; [lia | lia | constructor].
Qed.

(** X11: Which entry [set] evicts.  In any cache built by a program: if the key
    is already stored or the cache is not full, [set] only moves the key to
    the most-recently-used end; otherwise (a new key into a full cache) it
    drops exactly the first key of [keys()], the least recently used, and
    puts the new key last. *)
Theorem set_evicts_least_recently_used
    (p : Q) (q : option Q) (ops : list op) (now : Z) (key : string) (v : V) :
  let c := run_ops ops (createLruCache p q) in
  keys (set now key v c)
  = if decide (key ∈ keys c ∨ size c < maxSize c)
    then filter (λ k, k ≠ key) (keys c) ++ [key]
    else tail (keys c) ++ [key].
Proof.
  intros c.
  destruct (well_formed_run_ops ops _ (well_formed_create p q)) as [Hb Hs Hu].
  fold c in Hb, Hs, Hu.
  destruct (set_before_eviction now key v c) as (older & Hmap & Holder).
  set (entry := mkEntry v (if 0 <? ttlMs c then now + ttlMs c else 0)) in *.
  assert (Hkeys : map_keys older = filter (λ k, k ≠ key) (keys c)).
  { rewrite Holder. apply (map_keys_delete key (map c)). }
  assert (Hlen : length older = length (filter (λ k, k ≠ key) (keys c))).
  { rewrite <- Hkeys. unfold map_keys. rewrite length_fmap. reflexivity. }
  assert (Hsize : size c = Z.of_nat (length (keys c))).
  { unfold size, map_size, keys, map_keys. rewrite length_fmap. reflexivity. }
  assert (Hnew : map_size (older ++ [(key, entry)]) = Z.of_nat (length older) + 1).
  { unfold map_size. rewrite length_app. simpl length. lia. }
  unfold keys at 1. rewrite Hmap. cbn [evict_loop].
  destruct (decide (key ∈ keys c ∨ size c < maxSize c)) as [Hroom|Hfull].
  - assert (Hfit : (maxSize c <? map_size (older ++ [(key, entry)])) = false).
    { apply Z.ltb_ge. rewrite Hnew, Hlen.
      pose proof (length_filter (λ k, k ≠ key) (keys c)) as Hle.
      destruct Hroom as [Hin|Hlt]; [|lia].
      assert ((length (filter (λ k, k ≠ key) (keys c)) < length (keys c))%nat)
        by (apply (length_filter_lt _ _ key Hin); intros Hne; apply Hne; reflexivity).
      lia. }
    rewrite Hfit. unfold map_keys. rewrite fmap_app. fold (map_keys older).
    rewrite Hkeys. reflexivity.
  - assert (Habsent : key ∉ keys c) by (intros Hin; apply Hfull; left; exact Hin).
    assert (Heq : size c = maxSize c).
    { destruct (Z.lt_ge_cases (size c) (maxSize c)); [|lia].
      exfalso. apply Hfull. right. assumption. }
    assert (Hsame : older = map c) by (rewrite Holder; apply filter_entries_absent, Habsent).
    assert (Hover : (maxSize c <? map_size (older ++ [(key, entry)])) = true).
    { apply Z.ltb_lt. rewrite Hnew, Hsame. unfold size, map_size in Heq. lia. }
    rewrite Hover. clear Hover Hnew Hlen Hkeys.
    rewrite Hsame. clear Hsame Holder older Hmap.
    unfold keys, size, map_size in *.
    destruct (map c) as [|[k0 e0] m]; [simpl in Heq; lia|].
    unfold map_keys in Hu, Habsent. rewrite fmap_cons in Hu, Habsent. cbn [fst] in Hu, Habsent.
    apply NoDup_cons in Hu as [Hk0 _]. apply not_elem_of_cons in Habsent as [Hne Habsent].
    assert (Hevict : evictOldest (((k0, e0) :: m) ++ [(key, entry)]) = m ++ [(key, entry)]).
    { unfold evictOldest. cbn [app map_keys fmap list_fmap fst map_delete snd].
      rewrite filter_cons. cbn [fst].
      destruct (decide (k0 ≠ k0)) as [Hbad|_]; [congruence|].
      rewrite filter_app, filter_cons. cbn [fst].
      destruct (decide (key ≠ k0)) as [_|Hbad]; [|exfalso; apply Hbad; exact Hne].
      rewrite filter_nil. f_equal. apply filter_entries_absent. exact Hk0. }
    rewrite Hevict. cbn [length evict_loop].
    assert (Hstop : (maxSize c <? map_size (m ++ [(key, entry)])) = false).
    { apply Z.ltb_ge. unfold map_size. rewrite length_app. simpl length in *. lia. }
    rewrite Hstop. unfold map_keys. rewrite fmap_app, fmap_cons. reflexivity.
Qed.

(** X12: [get] on a live entry returns its value and moves the key to the
    most-recently-used end without touching the entry: [expiresAt] is not
    extended by a read.  [get] on an expired entry removes it, and [get] on
    a missing key changes nothing. *)
Theorem get_promotes_without_refreshing (c : cache) (now : Z) (key : string) :
  (∀ entry, map_get key (map c) = Some entry → isExpired now entry = false →
     (get now key c).1 = Some (value entry)
     ∧ keys (get now key c).2 = filter (λ k, k ≠ key) (keys c) ++ [key]
     ∧ map_get key (map (get now key c).2) = Some entry)
  ∧ (∀ entry, map_get key (map c) = Some entry → isExpired now entry = true →
     (get now key c).1 = None
     ∧ keys (get now key c).2 = filter (λ k, k ≠ key) (keys c)
     ∧ map_get key (map (get now key c).2) = None)
  ∧ (map_get key (map c) = None → get now key c = (None, c)).
Proof.
  unfold get, keys. split; [|split].
  - intros entry Hget Hlive. rewrite Hget, Hlive. cbn [fst snd map with_map].
    unfold touch. split; [reflexivity|]. split.
    + rewrite map_keys_set_absent by apply map_get_delete.
      rewrite map_keys_delete. reflexivity.
    + apply map_get_set_same.
  - intros entry Hget Hdead. rewrite Hget, Hdead. cbn [fst snd map with_map].
    split; [reflexivity|]. split; [apply map_keys_delete | apply map_get_delete].
  - intros Hget. rewrite Hget. reflexivity.
Qed.

(** ** Other keys, [delete], and caches without TTL *)

Lemma evict_loop_only_removes fuel : ∀ bound (m : jsmap) k e,
  map_get k (evict_loop fuel bound m) = Some e → map_get k m = Some e.
Proof.
  induction fuel as [|fuel IH]; intros bound m k e; cbn [evict_loop]; [tauto|].
  destruct (bound <? map_size m); [|tauto].
  intros Hget. apply IH in Hget. unfold evictOldest in Hget.
  destruct (map_keys m) as [|oldest rest]; [exact Hget|].
  cbn [map_delete snd] in Hget. rewrite map_get_filter_other in Hget.
  destruct (decide (oldest = k)); [discriminate | exact Hget].
Qed.

(** X13: An operation on one key leaves the entries of the other keys alone:
    after [get], [has] or [delete] on [key] every other key holds what it
    held, and after [set] on [key] every other key that is still stored
    holds what it held (it can only have been evicted, never altered). *)
Theorem other_keys_untouched (c : cache) (now : Z) (key k : string) (v : V) :
  k ≠ key →
  map_get k (map (get now key c).2) = map_get k (map c)
  ∧ map_get k (map (has now key c).2) = map_get k (map c)
  ∧ map_get k (map (delete key c).2) = map_get k (map c)
  ∧ (∀ e, map_get k (map (set now key v c)) = Some e → map_get k (map c) = Some e).
Proof.
  intros Hne.
  assert (Hdel : map_get k (map_delete key (map c)).2 = map_get k (map c)).
  { cbn [map_delete snd]. rewrite map_get_filter_other.
    destruct (decide (key = k)); [congruence | reflexivity]. }
  split; [|split; [|split]].
  - unfold get. destruct (map_get key (map c)) as [entry|]; [|reflexivity].
    destruct (isExpired now entry); cbn [snd map with_map]; [exact Hdel|].
    unfold touch. rewrite map_get_set_other by exact Hne. exact Hdel.
  - unfold has. destruct (map_get key (map c)) as [entry|]; [|reflexivity].
    destruct (isExpired now entry); cbn [snd map with_map]; [exact Hdel | reflexivity].
  - unfold delete. exact Hdel.
  - intros e Hget.
    destruct (set_before_eviction now key v c) as (older & Hmap & Holder).
    rewrite Hmap in Hget. apply evict_loop_only_removes in Hget.
    rewrite map_get_app_other in Hget by exact Hne.
    rewrite Holder in Hget. rewrite <- Hdel. exact Hget.
Qed.

Lemma length_filter_unique (key : string) (l : list string) :
  NoDup l → key ∈ l → S (length (filter (λ k, k ≠ key) l)) = length l.
Proof.
  induction 1 as [|x l Hx Hl IH]; intros Hin; [apply elem_of_nil in Hin; destruct Hin|].
  rewrite filter_cons. destruct (decide (x ≠ key)) as [Hne|Heq].
  - apply elem_of_cons in Hin as [->|Hin]; [congruence|].
    simpl. rewrite (IH Hin). reflexivity.
  - assert (x = key) as -> by (destruct (decide (x = key)); [assumption | contradiction]).
    rewrite filter_absent by exact Hx. reflexivity.
Qed.

(** X14: [delete] removes exactly the named entry.  In any cache built by a
    program it returns [true] exactly when the key is stored (expired or
    not); afterwards the key is gone from [keys()], the other keys keep
    their order, [size()] has dropped by one if the key was stored and not
    at all otherwise, [get] and [has] miss at every time without changing
    anything, and a second [delete] returns [false]. *)
Theorem delete_removes_exactly_one
    (p : Q) (q : option Q) (ops : list op) (now : Z) (key : string) :
  let c := run_ops ops (createLruCache p q) in
  let d := delete key c in
  (d.1 = true ↔ key ∈ keys c)
  ∧ keys d.2 = filter (λ k, k ≠ key) (keys c)
  ∧ size d.2 = size c - (if d.1 then 1 else 0)
  ∧ get now key d.2 = (None, d.2)
  ∧ has now key d.2 = (false, d.2)
  ∧ (delete key d.2).1 = false.
Proof.
  intros c d.
  destruct (well_formed_run_ops ops _ (well_formed_create p q)) as [_ _ Hu].
  fold c in Hu.
  assert (Hfound : d.1 = true ↔ key ∈ keys c).
  { unfold d, delete, map_delete. cbn [fst]. rewrite bool_decide_eq_true.
    unfold keys. destruct (map_get key (map c)) as [e|] eqn:Hget.
    - split; [intros _ | intros _; eexists; reflexivity].
      destruct (decide (key ∈ map_keys (map c))) as [Hin|Hout]; [exact Hin|].
      apply map_get_None in Hout. congruence.
    - split; [intros [x Hx]; discriminate|].
      intros Hin. apply map_get_None in Hget. contradiction. }
  assert (Hkeys : keys d.2 = filter (λ k, k ≠ key) (keys c))
    by apply (map_keys_delete key (map c)).
  assert (Hgone : map_get key (map d.2) = None) by apply (map_get_delete key (map c)).
  split; [exact Hfound|]. split; [exact Hkeys|]. split; [|split; [|split]].
  - assert (Hsz : ∀ c0 : cache, size c0 = Z.of_nat (length (keys c0))).
    { intros c0. unfold size, map_size, keys, map_keys. rewrite length_fmap. reflexivity. }
    rewrite !Hsz, Hkeys. destruct d.1 eqn:Hd.
    + assert (Hin : key ∈ keys c) by (apply Hfound; reflexivity).
      pose proof (length_filter_unique key (keys c) Hu Hin). lia.
    + assert (Hout : key ∉ keys c) by (intros Hin; apply Hfound in Hin; congruence).
      rewrite filter_absent by exact Hout. lia.
  - unfold get. rewrite Hgone. reflexivity.
  - unfold has. rewrite Hgone. reflexivity.
  - unfold delete, map_delete. cbn [fst]. rewrite Hgone.
    apply bool_decide_eq_false. intros [x Hx]. discriminate.
Qed.

(** No entry of the map can expire. *)
Definition never_expires (c : cache) : Prop :=
  Forall (λ p, expiresAt p.2 = 0) (map c).

Lemma never_expires_filter (key : string) (m : jsmap) :
  Forall (λ p, expiresAt p.2 = 0) m →
  Forall (λ p, expiresAt p.2 = 0) (filter (λ p, p.1 ≠ key) m).
Proof.
  rewrite !Forall_forall. intros Hm x Hx.
  apply list_elem_of_filter in Hx as [_ Hx]. apply Hm, Hx.
Qed.

Lemma never_expires_evict_loop fuel : ∀ bound (m : jsmap),
  Forall (λ p, expiresAt p.2 = 0) m →
  Forall (λ p, expiresAt p.2 = 0) (evict_loop fuel bound m).
Proof.
  induction fuel as [|fuel IH]; intros bound m Hm; cbn [evict_loop]; [exact Hm|].
  destruct (bound <? map_size m); [|exact Hm]. apply IH.
  unfold evictOldest. destruct (map_keys m); [exact Hm|].
  cbn [map_delete snd]. apply never_expires_filter, Hm.
Qed.

Lemma never_expires_step c o :
  ttlMs c = 0 → never_expires c → never_expires (step c o) ∧ ttlMs (step c o) = 0.
Proof.
  unfold never_expires. intros Httl Hc.
  assert (Hdel : ∀ key, Forall (λ p, expiresAt p.2 = 0) (map_delete key (map c)).2).
  { intros key. cbn [map_delete snd]. apply never_expires_filter, Hc. }
  destruct o as [now key v|now key|now key|key|]; unfold step.
  - split; [|exact Httl].
    destruct (set_before_eviction now key v c) as (older & Hmap & Holder).
    rewrite Hmap. apply never_expires_evict_loop, Forall_app. split.
    + rewrite Holder. apply never_expires_filter, Hc.
    + constructor; [|constructor]. cbn [snd expiresAt]. rewrite Httl. reflexivity.
  - unfold get. destruct (map_get key (map c)) as [entry|] eqn:Hget; [|split; assumption].
    destruct (isExpired now entry); cbn [snd map with_map ttlMs]; (split; [|exact Httl]).
    + apply Hdel.
    + unfold touch. rewrite map_set_absent by apply map_get_delete.
      apply Forall_app. split; [apply Hdel|]. constructor; [|constructor].
      apply map_get_Some_elem in Hget. rewrite Forall_forall in Hc.
      apply (Hc _ Hget).
  - unfold has. destruct (map_get key (map c)) as [entry|]; [|split; assumption].
    destruct (isExpired now entry); cbn [snd map with_map ttlMs]; (split; [|exact Httl]);
      [apply Hdel | exact Hc].
  - unfold delete. cbn [snd map with_map ttlMs map_delete]. split; [apply (Hdel key) | exact Httl].
  - split; [constructor | exact Httl].
Qed.

Lemma never_expires_run_ops ops : ∀ c,
  ttlMs c = 0 → never_expires c → never_expires (run_ops ops c).
Proof.
  induction ops as [|o ops IH]; intros c Httl Hc; [exact Hc|].
  destruct (never_expires_step c o Httl Hc) as [Hc1 Httl1].
  apply (IH _ Httl1 Hc1).
Qed.

(** X15: Without a TTL nothing ever expires.  When the cache is constructed with
    [ttlMs] omitted, zero, negative or below one (so that the stored
    [ttlMs] is 0), then after any program and at any clock value [has] is a
    pure membership test that changes nothing, and [get] finds every stored
    key. *)
Theorem no_ttl_never_expires
    (p : Q) (q : option Q) (ops : list op) (now : Z) (key : string) :
  ttlMs (createLruCache p q) = 0 →
  let c := run_ops ops (createLruCache p q) in
  has now key c = (bool_decide (key ∈ keys c), c)
  ∧ (is_Some (get now key c).1 ↔ key ∈ keys c).
Proof.
  intros Httl c.
  assert (Hc : never_expires c)
    by (apply never_expires_run_ops; [exact Httl | constructor]).
  unfold has, get, keys.
  destruct (map_get key (map c)) as [entry|] eqn:Hget.
  - assert (Hin : key ∈ map_keys (map c)).
    { destruct (decide (key ∈ map_keys (map c))) as [Hin|Hout]; [exact Hin|].
      apply map_get_None in Hout. congruence. }
    assert (Hlive : isExpired now entry = false).
    { apply map_get_Some_elem in Hget. unfold never_expires in Hc.
      rewrite Forall_forall in Hc. specialize (Hc _ Hget). cbn [snd] in Hc.
      unfold isExpired. rewrite Hc. reflexivity. }
    rewrite Hlive. cbn [fst]. rewrite bool_decide_true by exact Hin.
    split; [reflexivity|]. split; [intros _; exact Hin | intros _; eexists; reflexivity].
  - assert (Hout : key ∉ map_keys (map c)) by (apply map_get_None, Hget).
    rewrite bool_decide_false by exact Hout. cbn [fst].
    split; [reflexivity|]. split; [intros [x Hx]; discriminate | intros Hin; contradiction].
Qed.

End Cache.
Arguments Entry : clear implicits.
Arguments cache : clear implicits.
Arguments op : clear implicits.

(** C6, as stated, fails: [has] deletes the entry it finds expired, and
    that is observable via [keys()] and in what the next [set] evicts.  With
    room for two entries and a TTL of 5000 ms, ["x"] is stored at 1000, ["y"]
    at 2000, and a [get] at 2500 promotes ["x"]: [keys()] is [y, x].  At 6000
    ["x"] has expired and ["y"] has not.  [has("x")] answers [false] and
    [keys()] becomes [y]; a [set("z")] that follows keeps the live ["y"],
    where without the probe it evicts ["y"] and keeps ["x"]. *)
Lemma has_removes_expired_key :
  let c := run_ops [OpSet 1000 "x" 1%nat; OpSet 2000 "y" 2%nat; OpGet 2500 "x"]
             (createLruCache 2%Q (Some 5000%Q)) in
  keys c = ["y"; "x"]%string
  ∧ (has 6000 "x" c).1 = false
  ∧ keys (has 6000 "x" c).2 = ["y"]%string
  ∧ keys (has 6000 "x" c).2 ≠ keys c
  ∧ (get 6000 "y" c).1 = Some 2%nat
  ∧ keys (set 6000 "z" 3%nat c) = ["x"; "z"]%string
  ∧ keys (set 6000 "z" 3%nat (has 6000 "x" c).2) = ["y"; "z"]%string.
Proof.
  cbv zeta.
  split; [reflexivity|]. split; [reflexivity|]. split; [reflexivity|].
  split; [vm_compute; discriminate|].
  split; [reflexivity|]. split; reflexivity.
Qed.

(** An entry stored at 1000 with a TTL of 5000 ms, probed at 6000: [delete]
    finds it, [get] and [has] do not; and a key that was never stored. *)
Lemma delete_ignores_expiry_witness :
  let c := set 1000 "a" 1%nat (createLruCache 10%Q (Some 5000%Q)) in
  ((delete "a" c).1 = true
   ∧ (get 6000 "a" c).1 = None
   ∧ (has 6000 "a" c).1 = false)
  ∧ keys (delete "a" c).2 = []
  ∧ (delete "b" c).1 = false.
Proof.
  intros c.
  destruct (delete_ignores_expiry c 6000 "a") as (_ & _ & _ & Hkeys & Hexpired).
  destruct (delete_ignores_expiry c 6000 "b") as (_ & Habsent & _).
  split; [apply (Hexpired (mkEntry 1%nat 6000)); vm_compute; reflexivity|].
  split; [exact (eq_trans Hkeys eq_refl)|].
  apply Habsent. vm_compute. intros Hin.
  apply list_elem_of_singleton in Hin. discriminate Hin.
Defined.

(** The scenarios of the specification. *)
Example evicts_least_recently_used :
  keys (fold_left step
          [OpSet 0 "a" 1%nat; OpSet 0 "b" 2%nat; OpSet 0 "c" 3%nat]
          (createLruCache 2%Q None))
  = ["b"; "c"]%string.
Proof. reflexivity. Qed.

Example get_refreshes_recency :
  keys (fold_left step
          [OpSet 0 "a" 1%nat; OpSet 0 "b" 2%nat; OpGet 0 "a"; OpSet 0 "c" 3%nat]
          (createLruCache 2%Q None))
  = ["a"; "c"]%string.
Proof. reflexivity. Qed.

Example has_keeps_recency :
  keys (fold_left step
          [OpSet 0 "a" 1%nat; OpSet 0 "b" 2%nat; OpHas 0 "a"; OpSet 0 "c" 3%nat]
          (createLruCache 2%Q None))
  = ["b"; "c"]%string.
Proof. reflexivity. Qed.

Example has_drops_expired_entry :
  let c := fold_left step [OpSet 1000 "a" 1%nat; OpSet 3000 "b" 2%nat]
             (createLruCache 2%Q (Some 5000%Q)) in
  keys c = ["a"; "b"]%string
  ∧ (has 5999 "a" c).1 = true ∧ keys (has 5999 "a" c).2 = ["a"; "b"]%string
  ∧ (has 6000 "a" c).1 = false ∧ keys (has 6000 "a" c).2 = ["b"]%string.
Proof. repeat split. Qed.

(** An entry stored at 1000 with a TTL of 5000 ms is found at 5999 and not
    at 6000. *)
Lemma set_then_get_witness :
  (get 5999 "a" (set 1000 "a" 7%nat (createLruCache 2%Q (Some 5000%Q)))).1 = Some 7%nat
  ∧ (get 6000 "a" (set 1000 "a" 7%nat (createLruCache 2%Q (Some 5000%Q)))).1 = None.
Proof.
  destruct (set_then_get (createLruCache 2%Q (Some 5000%Q)) 1000 5999 "a" 7%nat)
    as (_ & Hearly & _); [vm_compute; discriminate|].
  destruct (set_then_get (createLruCache 2%Q (Some 5000%Q)) 1000 6000 "a" 7%nat)
    as (_ & Hlate & _); [vm_compute; discriminate|].
  split; [exact Hearly | exact Hlate].
Defined.

(** Reading, probing, deleting or overwriting ["a"] leaves ["b"] alone. *)
Lemma other_keys_untouched_witness :
  let c := set 0 "b" 2%nat (set 0 "a" 1%nat (createLruCache 2%Q None)) in
  map_get "b" (map (get 5 "a" c).2) = map_get "b" (map c)
  ∧ map_get "b" (map (has 5 "a" c).2) = map_get "b" (map c)
  ∧ map_get "b" (map (delete "a" c).2) = map_get "b" (map c)
  ∧ (∀ e, map_get "b" (map (set 5 "a" 3%nat c)) = Some e → map_get "b" (map c) = Some e).
Proof.
  apply (other_keys_untouched
           (set 0 "b" 2%nat (set 0 "a" 1%nat (createLruCache 2%Q None))) 5 "a" "b" 3%nat).
  discriminate.
Defined.

(** A cache constructed without [ttlMs], probed a year later. *)
Lemma no_ttl_never_expires_witness :
  has 31536000000 "a" (run_ops [OpSet 0 "a" 1%nat] (createLruCache 2%Q None))
  = (bool_decide ("a" ∈ keys (run_ops [OpSet 0 "a" 1%nat] (createLruCache 2%Q None))),
     run_ops [OpSet 0 "a" 1%nat] (createLruCache 2%Q None))
  ∧ (is_Some (get 31536000000 "a"
                (run_ops [OpSet 0 "a" 1%nat] (createLruCache 2%Q None))).1
     ↔ "a" ∈ keys (run_ops [OpSet 0 "a" 1%nat] (createLruCache 2%Q None))).
Proof.
  apply (no_ttl_never_expires 2%Q None [OpSet 0 "a" 1%nat] 31536000000 "a").
  reflexivity.
Defined.

End LruCache.

(* ================================================================== *)
(** * Circuit breaker ([circuit-breaker.ts]) *)
(* ================================================================== *)

Module CircuitBreaker.

(** ["closed" | "open" | "half-open"] *)
Inductive CircuitBreakerState : Type :=
| Closed
| Open
| HalfOpen.

(** The closure state of [createCircuitBreaker]: two constants and the
    variables [state], [consecutiveFailures] and [openedAt]. *)
Record breaker : Type := mkBreaker {
  failureThreshold : Z;
  resetTimeoutMs : Z;
  state : CircuitBreakerState;
  consecutiveFailures : Z;
  openedAt : Z;
}.

Definition createCircuitBreaker (failureThresholdOption resetTimeoutMsOption : Q)
  : breaker :=
  {| failureThreshold := clamp_floor 1 failureThresholdOption;
     resetTimeoutMs := clamp_floor 0 resetTimeoutMsOption;
     state := Closed;
     consecutiveFailures := 0;
     openedAt := 0 |}.

Definition transitionToOpen (now : Z) (b : breaker) : breaker :=
  mkBreaker (failureThreshold b) (resetTimeoutMs b) Open (consecutiveFailures b) now.

Definition transitionToClosed (b : breaker) : breaker :=
  mkBreaker (failureThreshold b) (resetTimeoutMs b) Closed 0 0.

Definition shouldTransitionToHalfOpen (now : Z) (b : breaker) : bool :=
  match state b with
  | Open => resetTimeoutMs b <=? now - openedAt b
  | _ => false
  end.

(** The error a call rejects with: the breaker's own [CircuitOpenError], or
    whatever [fn] threw. *)
Inductive CallError (E : Type) : Type :=
| CircuitOpenError (retryAfterMs : Z)
| Thrown (e : E).
Arguments CircuitOpenError {E} retryAfterMs.
Arguments Thrown {E} e.

(** The clock values one [call] may read: in [shouldTransitionToHalfOpen],
    in the computation of [elapsed] when it rejects, and in
    [transitionToOpen] after [fn] has failed. *)
Record readings : Type := mkReadings {
  atCheck : Z;
  atReject : Z;
  atFailure : Z;
}.

(** What [call] decides before it would invoke [fn]. *)
Inductive gate : Type :=
| Reject (retryAfterMs : Z)
| Invoke.

(** The synchronous head of [call], up to the [try]. *)
Definition call_enter (r : readings) (b : breaker) : gate * breaker :=
  let b :=
    if shouldTransitionToHalfOpen (atCheck r) b
    then mkBreaker (failureThreshold b) (resetTimeoutMs b) HalfOpen
                   (consecutiveFailures b) (openedAt b)
    else b in
  match state b with
  | Open =>
      let elapsed := atReject r - openedAt b in
      (Reject (Z.max 0 (resetTimeoutMs b - elapsed)), b)
  | _ => (Invoke, b)
  end.

(** After [await fn()] returned. *)
Definition on_success (b : breaker) : breaker :=
  match state b with
  | HalfOpen => transitionToClosed b
  | _ => mkBreaker (failureThreshold b) (resetTimeoutMs b) (state b) 0 (openedAt b)
  end.

(** The [catch] block. *)
Definition on_failure (now : Z) (b : breaker) : breaker :=
  match state b with
  | HalfOpen => transitionToOpen now b
  | _ =>
      let b := mkBreaker (failureThreshold b) (resetTimeoutMs b) (state b)
                         (consecutiveFailures b + 1) (openedAt b) in
      if failureThreshold b <=? consecutiveFailures b
      then transitionToOpen now b
      else b
  end.

(** [call(fn)] with nothing else touching the breaker while [fn] runs.  The
    body of [fn] acts on a world [W] of its own. *)
Definition call {W T E : Type} (r : readings) (fn : W → outcome T E * W)
    (b : breaker) (w : W) : outcome T (CallError E) * breaker * W :=
  match call_enter r b with
  | (Reject retry, b) => (Rejected (CircuitOpenError retry), b, w)
  | (Invoke, b) =>
      let '(o, w') := fn w in
      match o with
      | Fulfilled v => (Fulfilled v, on_success b, w')
      | Rejected e => (Rejected (Thrown e), on_failure (atFailure r) b, w')
      end
  end.

(** The method [state()]. *)
Definition read_state (now : Z) (b : breaker) : CircuitBreakerState :=
  if shouldTransitionToHalfOpen now b then HalfOpen else state b.

Definition failures (b : breaker) : Z := consecutiveFailures b.

Definition reset (b : breaker) : breaker := transitionToClosed b.

(** Sequential use: calls whose [fn] succeeds ([true]) or fails, and resets. *)
Inductive op : Type :=
| OpCall (r : readings) (ok : bool)
| OpReset.

Definition settle (ok : bool) (w : unit) : outcome unit unit * unit :=
  (if ok then Fulfilled () else Rejected (), w).

Definition step (b : breaker) (o : op) : breaker :=
  match o with
  | OpCall r ok => (call r (settle ok) b ()).1.2
  | OpReset => reset b
  end.

Definition run_ops (ops : list op) (b : breaker) : breaker := fold_left step ops b.

(** [k] calls in a row whose [fn] fails. *)
Definition failing_calls (rs : list readings) : list op :=
  (λ r, OpCall r false) <$> rs.

(** ** Facts about the breaker *)

(** What sequential use maintains: between calls the stored state is never
    ["half-open"], and a closed breaker has counted fewer failures than the
    threshold. *)
Record settled (b : breaker) : Prop := {
  settled_threshold : 1 <= failureThreshold b;
  settled_state : state b ≠ HalfOpen;
  settled_count : state b = Closed → 0 <= consecutiveFailures b < failureThreshold b;
}.

Lemma settled_create p q : settled (createCircuitBreaker p q).
Proof.
  constructor; simpl; unfold clamp_floor; [lia | discriminate | lia].
Qed.

Lemma call_enter_closed r b : state b = Closed → call_enter r b = (Invoke, b).
Proof.
  intros Hs. unfold call_enter, shouldTransitionToHalfOpen. rewrite Hs. simpl.
  rewrite Hs. reflexivity.
Qed.

Lemma call_enter_open_waiting r b :
  state b = Open → atCheck r - openedAt b < resetTimeoutMs b →
  call_enter r b
  = (Reject (Z.max 0 (resetTimeoutMs b - (atReject r - openedAt b))), b).
Proof.
  intros Hs Hlt. unfold call_enter, shouldTransitionToHalfOpen. rewrite Hs.
  destruct (Z.leb_spec (resetTimeoutMs b) (atCheck r - openedAt b)); [lia|].
  rewrite Hs. reflexivity.
Qed.

Lemma call_enter_open_elapsed r b :
  state b = Open → resetTimeoutMs b <= atCheck r - openedAt b →
  call_enter r b
  = (Invoke, mkBreaker (failureThreshold b) (resetTimeoutMs b) HalfOpen
               (consecutiveFailures b) (openedAt b)).
Proof.
  intros Hs Hge. unfold call_enter, shouldTransitionToHalfOpen. rewrite Hs.
  destruct (Z.leb_spec (resetTimeoutMs b) (atCheck r - openedAt b)); [|lia].
  reflexivity.
Qed.

(** The breaker a call leaves behind, by the outcome of [fn]. *)
Lemma call_breaker {W T E : Type} r (fn : W → outcome T E * W) b w :
  (call r fn b w).1.2
  = match call_enter r b with
    | (Reject _, b1) => b1
    | (Invoke, b1) =>
        match (fn w).1 with
        | Fulfilled _ => on_success b1
        | Rejected _ => on_failure (atFailure r) b1
        end
    end.
Proof.
  unfold call. destruct (call_enter r b) as [[retry|] b1]; [reflexivity|].
  destruct (fn w) as [[v|e] w']; reflexivity.
Qed.

Lemma step_call r ok b :
  step b (OpCall r ok)
  = match call_enter r b with
    | (Reject _, b1) => b1
    | (Invoke, b1) => if ok then on_success b1 else on_failure (atFailure r) b1
    end.
Proof.
  unfold step. rewrite call_breaker. destruct (call_enter r b) as [[retry|] b1];
    [reflexivity | destruct ok; reflexivity].
Qed.

Lemma threshold_step b o : failureThreshold (step b o) = failureThreshold b
                           ∧ resetTimeoutMs (step b o) = resetTimeoutMs b.
Proof.
  destruct o as [r ok|]; [|split; reflexivity].
  rewrite step_call. destruct b as [ft rt st cf oa].
  unfold call_enter, shouldTransitionToHalfOpen, on_success, on_failure; simpl.
  destruct st; simpl.
  - destruct ok; simpl; [split; reflexivity|].
    destruct (ft <=? cf + 1); split; reflexivity.
  - destruct (rt <=? atCheck r - oa); simpl; [destruct ok|]; split; reflexivity.
  - destruct ok; split; reflexivity.
Qed.

Lemma settled_step b o : settled b → settled (step b o).
Proof.
  intros [Ht Hs Hc]. destruct o as [r ok|].
  - rewrite step_call. destruct b as [ft rt st cf oa]. simpl in *.
    unfold call_enter, shouldTransitionToHalfOpen, on_success, on_failure; simpl.
    destruct st; simpl; [| |congruence].
    + specialize (Hc eq_refl). destruct ok; simpl.
      * constructor; simpl; [lia | discriminate | lia].
      * destruct (Z.leb_spec ft (cf + 1)); constructor; simpl;
          first [lia | discriminate].
    + destruct (rt <=? atCheck r - oa); simpl.
      * destruct ok; constructor; simpl; first [lia | discriminate].
      * constructor; simpl; first [lia | discriminate].
  - constructor; simpl; [lia | discriminate | lia].
Qed.

Lemma settled_run_ops ops : ∀ b, settled b → settled (run_ops ops b).
Proof.
  induction ops as [|o ops IH]; intros b Hb; simpl; [exact Hb|].
  apply IH, settled_step, Hb.
Qed.

(** A run of failures below the threshold is counted and leaves the breaker
    closed. *)
Lemma failing_calls_counted rs : ∀ b,
  state b = Closed →
  consecutiveFailures b + Z.of_nat (length rs) < failureThreshold b →
  let b' := run_ops (failing_calls rs) b in
  state b' = Closed
  ∧ consecutiveFailures b' = consecutiveFailures b + Z.of_nat (length rs)
  ∧ failureThreshold b' = failureThreshold b.
Proof.
  induction rs as [|r rs IH]; intros b Hst Hlt.
  - simpl. repeat split; [exact Hst | lia].
  - rewrite length_cons, Nat2Z.inj_succ in Hlt.
    assert (Hstep : step b (OpCall r false)
                    = mkBreaker (failureThreshold b) (resetTimeoutMs b) Closed
                                (consecutiveFailures b + 1) (openedAt b)).
    { rewrite step_call, (call_enter_closed r b Hst).
      unfold on_failure. rewrite Hst. simpl.
      destruct (Z.leb_spec (failureThreshold b) (consecutiveFailures b + 1)); [lia|].
      reflexivity. }
    unfold failing_calls, run_ops in *. rewrite fmap_cons. cbn [fold_left].
    rewrite Hstep.
    specialize (IH (mkBreaker (failureThreshold b) (resetTimeoutMs b) Closed
                              (consecutiveFailures b + 1) (openedAt b))).
    cbn [state consecutiveFailures failureThreshold] in IH.
    destruct IH as (H1 & H2 & H3); [reflexivity | lia |].
    rewrite length_cons, Nat2Z.inj_succ.
    repeat split; [exact H1 | lia | exact H3].
Qed.

(** The transitions, one by one, for a call whose [fn] has the given outcome. *)
Section Transitions.
Context {W T E : Type}.
Implicit Types (fn : W → outcome T E * W) (b : breaker) (r : readings).

Lemma closed_failure r fn b w e :
  settled b → state b = Closed → (fn w).1 = Rejected e →
  let b' := (call r fn b w).1.2 in
  (state b' = Open ↔ failures b + 1 = failureThreshold b)
  ∧ (state b' = Open → openedAt b' = atFailure r)
  ∧ (state b' ≠ Open → state b' = Closed ∧ failures b' = failures b + 1).
Proof.
  intros [Ht _ Hc] Hst Hfn b'. subst b'.
  rewrite call_breaker, (call_enter_closed r b Hst), Hfn.
  specialize (Hc Hst). unfold on_failure, failures. rewrite Hst. simpl.
  destruct (Z.leb_spec (failureThreshold b) (consecutiveFailures b + 1)); simpl.
  - split; [split; [lia | reflexivity]|]. split; [reflexivity | congruence].
  - split; [split; [discriminate | lia]|].
    split; [discriminate | intros _; split; reflexivity].
Qed.

Lemma closed_success r fn b w v :
  state b = Closed → (fn w).1 = Fulfilled v →
  let b' := (call r fn b w).1.2 in
  state b' = Closed ∧ failures b' = 0.
Proof.
  intros Hst Hfn b'. subst b'.
  rewrite call_breaker, (call_enter_closed r b Hst), Hfn.
  unfold on_success. rewrite Hst. simpl. split; reflexivity.
Qed.

Lemma open_becomes_half_open now r b :
  state b = Open →
  (read_state now b = HalfOpen ↔ resetTimeoutMs b <= now - openedAt b)
  ∧ (resetTimeoutMs b <= atCheck r - openedAt b →
     (call_enter r b).1 = Invoke ∧ state (call_enter r b).2 = HalfOpen).
Proof.
  intros Hst. split.
  - unfold read_state, shouldTransitionToHalfOpen. rewrite Hst.
    destruct (Z.leb_spec (resetTimeoutMs b) (now - openedAt b)).
    + split; [intros _; assumption | reflexivity].
    + split; [discriminate | lia].
  - intros Hge. rewrite (call_enter_open_elapsed r b Hst Hge). split; reflexivity.
Qed.

Lemma half_open_probe r fn b w :
  state b = Open → resetTimeoutMs b <= atCheck r - openedAt b →
  let b' := (call r fn b w).1.2 in
  (∀ v, (fn w).1 = Fulfilled v →
        (call r fn b w).1.1 = Fulfilled v ∧ state b' = Closed ∧ failures b' = 0)
  ∧ (∀ e, (fn w).1 = Rejected e →
        (call r fn b w).1.1 = Rejected (Thrown e)
        ∧ state b' = Open ∧ openedAt b' = atFailure r).
Proof.
  intros Hst Hge b'. subst b'. unfold call.
  rewrite (call_enter_open_elapsed r b Hst Hge).
  destruct (fn w) as [[v0|e0] w']; simpl; split.
  - intros v [= <-]. repeat split.
  - intros e Hfn; discriminate Hfn.
  - intros v Hfn; discriminate Hfn.
  - intros e [= <-]. repeat split.
Qed.

Lemma half_open_settles now b :
  state b = HalfOpen →
  state (on_success b) = Closed ∧ failures (on_success b) = 0
  ∧ state (on_failure now b) = Open ∧ openedAt (on_failure now b) = now.
Proof.
  intros Hst. unfold on_success, on_failure. rewrite Hst. repeat split.
Qed.

End Transitions.

Lemma failure_streak_opens p q rs r :
  let b0 := createCircuitBreaker p q in
  (Z.of_nat (length rs) < failureThreshold b0 →
     state (run_ops (failing_calls rs) b0) = Closed
     ∧ failures (run_ops (failing_calls rs) b0) = Z.of_nat (length rs))
  ∧ (Z.of_nat (length rs) + 1 = failureThreshold b0 →
     state (run_ops (failing_calls (rs ++ [r])) b0) = Open
     ∧ openedAt (run_ops (failing_calls (rs ++ [r])) b0) = atFailure r).
Proof.
  intros b0.
  assert (Hcount : Z.of_nat (length rs) < failureThreshold b0 →
            state (run_ops (failing_calls rs) b0) = Closed
            ∧ failures (run_ops (failing_calls rs) b0) = Z.of_nat (length rs)
            ∧ failureThreshold (run_ops (failing_calls rs) b0) = failureThreshold b0).
  { intros Hlt.
    destruct (failing_calls_counted rs b0) as (H1 & H2 & H3);
      [reflexivity | simpl; exact Hlt |].
    split; [exact H1|]. split; [exact H2 | exact H3]. }
  split.
  - intros Hlt. destruct (Hcount Hlt) as (H1 & H2 & _). split; assumption.
  - intros Heq. destruct Hcount as (H1 & H2 & H3); [lia|].
    unfold failing_calls, run_ops in *. rewrite fmap_app, fold_left_app.
    cbn [fmap list_fmap fold_left].
    set (bk := fold_left step ((λ r0, OpCall r0 false) <$> rs) b0) in *.
    rewrite step_call, (call_enter_closed r bk H1).
    unfold on_failure, failures in *. rewrite H1. simpl.
    destruct (Z.leb_spec (failureThreshold bk) (consecutiveFailures bk + 1)); [|lia].
    split; reflexivity.
Qed.

(** C3: the breaker starts closed with no failures; in sequential use a
    closed breaker opens, recording [openedAt = now], exactly on the failure
    that brings the count of consecutive failures to [failureThreshold]; an
    open breaker is seen as half-open by [state()] and by [call] once
    [now - openedAt >= resetTimeoutMs]; a success of [fn] in half-open closes
    it with [failures() = 0], a failure reopens it with [openedAt] set to
    the clock at that failure. *)
Theorem breaker_follows_state_machine {W T E : Type}
    (p q : Q) (ops : list op) (rs : list readings) (r : readings) (now : Z)
    (fn : W → outcome T E * W) (w : W) :
  let b0 := createCircuitBreaker p q in
  let b := run_ops ops b0 in
  let b' := (call r fn b w).1.2 in
  (read_state now b0 = Closed ∧ failures b0 = 0)
  ∧ ((Z.of_nat (length rs) < failureThreshold b0 →
        state (run_ops (failing_calls rs) b0) = Closed
        ∧ failures (run_ops (failing_calls rs) b0) = Z.of_nat (length rs))
     ∧ (Z.of_nat (length rs) + 1 = failureThreshold b0 →
        state (run_ops (failing_calls (rs ++ [r])) b0) = Open
        ∧ openedAt (run_ops (failing_calls (rs ++ [r])) b0) = atFailure r))
  ∧ (state b = Closed → ∀ e, (fn w).1 = Rejected e →
       (state b' = Open ↔ failures b + 1 = failureThreshold b)
       ∧ (state b' = Open → openedAt b' = atFailure r)
       ∧ (state b' ≠ Open → state b' = Closed ∧ failures b' = failures b + 1))
  ∧ (state b = Closed → ∀ v, (fn w).1 = Fulfilled v →
       state b' = Closed ∧ failures b' = 0)
  ∧ (state b = Open →
       (read_state now b = HalfOpen ↔ resetTimeoutMs b <= now - openedAt b)
       ∧ (resetTimeoutMs b <= atCheck r - openedAt b →
          (call_enter r b).1 = Invoke ∧ state (call_enter r b).2 = HalfOpen))
  ∧ (state b = Open → resetTimeoutMs b <= atCheck r - openedAt b →
       (∀ v, (fn w).1 = Fulfilled v →
             (call r fn b w).1.1 = Fulfilled v ∧ state b' = Closed ∧ failures b' = 0)
       ∧ (∀ e, (fn w).1 = Rejected e →
             (call r fn b w).1.1 = Rejected (Thrown e)
             ∧ state b' = Open ∧ openedAt b' = atFailure r))
  ∧ (∀ h, state h = HalfOpen →
       state (on_success h) = Closed ∧ failures (on_success h) = 0
       ∧ state (on_failure now h) = Open ∧ openedAt (on_failure now h) = now).
Proof.
  intros b0 b b'.
  assert (Hset : settled b) by apply settled_run_ops, settled_create.
  split; [split; reflexivity|].
  split; [apply failure_streak_opens|].
  split; [intros Hst e Hfn; apply (closed_failure r fn b w e Hset Hst Hfn)|].
  split; [intros Hst v Hfn; apply (closed_success r fn b w v Hst Hfn)|].
  split; [intros Hst; apply (open_becomes_half_open now r b Hst)|].
  split; [intros Hst Hge; apply (half_open_probe r fn b w Hst Hge)|].
  intros h Hh. apply (half_open_settles now h Hh).
Qed.

(** C4: a call on an open breaker whose reset timeout has not elapsed
    rejects with [CircuitOpenError] carrying
    [max(0, resetTimeoutMs - elapsed)], does not run [fn] (the gate says
    [Reject] and the world of [fn] is untouched, whatever [fn] is), and
    leaves the breaker exactly as it was. *)
Theorem open_circuit_rejects_without_invoking {W T E : Type}
    (b : breaker) (r : readings) (fn : W → outcome T E * W) (w : W) :
  state b = Open →
  atCheck r - openedAt b < resetTimeoutMs b →
  let retryAfterMs := Z.max 0 (resetTimeoutMs b - (atReject r - openedAt b)) in
  call r fn b w = (Rejected (CircuitOpenError retryAfterMs), b, w)
  ∧ call_enter r b = (Reject retryAfterMs, b)
  ∧ 0 <= retryAfterMs.
Proof.
  intros Hst Hlt retry. subst retry.
  pose proof (call_enter_open_waiting r b Hst Hlt) as Henter.
  unfold call. rewrite Henter. repeat split. lia.
Qed.

(** One failure opens a breaker with threshold 1 at time 1000; at 6000,
    with a reset timeout of 5000 ms, [state()] says half-open and a
    successful probe closes it. *)
Lemma breaker_follows_state_machine_witness :
  let b := run_ops [OpCall (mkReadings 1000 1000 1000) false]
             (createCircuitBreaker 1%Q 5000%Q) in
  let r := mkReadings 6000 6000 6000 in
  state b = Open
  ∧ (read_state 6000 b = HalfOpen ↔ resetTimeoutMs b <= 6000 - openedAt b)
  ∧ (call r (settle true) b ()).1.1 = Fulfilled ()
  ∧ state (call r (settle true) b ()).1.2 = Closed
  ∧ failures (call r (settle true) b ()).1.2 = 0.
Proof.
  destruct (breaker_follows_state_machine (W:=unit) (T:=unit) (E:=unit)
              1%Q 5000%Q [OpCall (mkReadings 1000 1000 1000) false] []
              (mkReadings 6000 6000 6000) 6000 (settle true) ())
    as (_ & _ & _ & _ & Hopen & Hprobe & _).
  split; [reflexivity|].
  split; [apply Hopen; reflexivity|].
  apply (Hprobe eq_refl); [vm_compute; discriminate | reflexivity].
Defined.

(** The test of the repository: opened at 1000 with a reset timeout of
    5000 ms, a call at 2000 is rejected with [retryAfterMs = 4000]. *)
Lemma open_circuit_rejects_without_invoking_witness :
  call (mkReadings 2000 2000 2000) (λ n : nat, (Fulfilled "should not run"%string, S n))
       (run_ops [OpCall (mkReadings 1000 1000 1000) false]
          (createCircuitBreaker 1%Q 5000%Q)) 0%nat
  = (Rejected (E:=CallError unit) (CircuitOpenError 4000),
     run_ops [OpCall (mkReadings 1000 1000 1000) false]
       (createCircuitBreaker 1%Q 5000%Q), 0%nat).
Proof.
  apply (open_circuit_rejects_without_invoking (W:=nat) (T:=string) (E:=unit)
           (run_ops [OpCall (mkReadings 1000 1000 1000) false]
              (createCircuitBreaker 1%Q 5000%Q))
           (mkReadings 2000 2000 2000)
           (λ n : nat, (Fulfilled "should not run"%string, S n)) 0%nat);
    vm_compute; reflexivity.
Defined.

(** ** The failure counter, [reset], and the retry hint *)

(** In sequential use the counter tells the state: a closed breaker has
    counted fewer failures than the threshold, an open one exactly the
    threshold. *)
Record counted (b : breaker) : Prop := {
  counted_threshold : 1 <= failureThreshold b;
  counted_state : state b ≠ HalfOpen;
  counted_closed : state b = Closed → 0 <= consecutiveFailures b < failureThreshold b;
  counted_open : state b = Open → consecutiveFailures b = failureThreshold b;
}.

Lemma counted_step b o : counted b → counted (step b o).
Proof.
  intros [Ht Hs Hc Ho]. destruct o as [r ok|].
  - rewrite step_call. destruct b as [ft rt st cf oa]. simpl in *.
    unfold call_enter, shouldTransitionToHalfOpen, on_success, on_failure; simpl.
    destruct st; simpl; [| |congruence].
    + specialize (Hc eq_refl). destruct ok; simpl.
      * constructor; simpl; first [lia | discriminate].
      * destruct (Z.leb_spec ft (cf + 1)); constructor; simpl;
          first [lia | discriminate].
    + specialize (Ho eq_refl).
      destruct (rt <=? atCheck r - oa); simpl.
      * destruct ok; constructor; simpl; first [lia | discriminate].
      * constructor; simpl; first [lia | discriminate].
  - constructor; simpl; first [lia | discriminate].
Qed.

Lemma counted_run_ops ops : ∀ b, counted b → counted (run_ops ops b).
Proof.
  induction ops as [|o ops IH]; intros b Hb; simpl; [exact Hb|].
  apply IH, counted_step, Hb.
Qed.

Lemma counted_create p q : counted (createCircuitBreaker p q).
Proof.
  constructor; simpl; unfold clamp_floor; first [lia | discriminate].
Qed.

Lemma constants_run_ops ops : ∀ b,
  failureThreshold (run_ops ops b) = failureThreshold b
  ∧ resetTimeoutMs (run_ops ops b) = resetTimeoutMs b.
Proof.
  induction ops as [|o ops IH]; intros b; simpl; [split; reflexivity|].
  destruct (IH (step b o)) as [H1 H2]. destruct (threshold_step b o) as [H3 H4].
  split; congruence.
Qed.

(** X16: In sequential use [failures()] is between 0 and [failureThreshold], it
    equals [failureThreshold] exactly while the breaker is open, the stored
    state between calls is never ["half-open"], and the two constants never
    change. *)
Theorem failures_track_the_state (p q : Q) (ops : list op) :
  let b := run_ops ops (createCircuitBreaker p q) in
  0 <= failures b <= failureThreshold b
  ∧ (failures b = failureThreshold b ↔ state b = Open)
  ∧ state b ≠ HalfOpen
  ∧ failureThreshold b = Z.max 1 (Qfloor p)
  ∧ resetTimeoutMs b = Z.max 0 (Qfloor q).
Proof.
  intros b.
  destruct (counted_run_ops ops _ (counted_create p q)) as [Ht Hs Hc Ho].
  destruct (constants_run_ops ops (createCircuitBreaker p q)) as [Hft Hrt].
  fold b in Ht, Hs, Hc, Ho, Hft, Hrt. unfold failures.
  split; [|split; [|split; [exact Hs | split; [exact Hft | exact Hrt]]]].
  - destruct (state b) eqn:Hst; [specialize (Hc eq_refl); lia
                                | specialize (Ho eq_refl); lia | congruence].
  - destruct (state b) eqn:Hst.
    + specialize (Hc eq_refl). split; [lia | discriminate].
    + specialize (Ho eq_refl). split; [reflexivity | intros _; exact Ho].
    + congruence.
Qed.

(** X17: [reset()] restores the breaker to exactly the state it was constructed
    in, whatever has happened since. *)
Theorem reset_restores_construction (p q : Q) (ops : list op) :
  reset (run_ops ops (createCircuitBreaker p q)) = createCircuitBreaker p q.
Proof.
  destruct (constants_run_ops ops (createCircuitBreaker p q)) as [Hft Hrt].
  unfold reset, transitionToClosed. rewrite Hft, Hrt. reflexivity.
Qed.

(** X18: Calls that arrive while the breaker is open and the timeout has not
    elapsed are all rejected and change nothing, whatever their [fn] would
    have done: a burst of rejected calls does not postpone recovery. *)
Theorem rejected_calls_change_nothing (b : breaker) (calls : list (readings * bool)) :
  state b = Open →
  Forall (λ c, atCheck c.1 - openedAt b < resetTimeoutMs b) calls →
  run_ops ((λ c, OpCall c.1 c.2) <$> calls) b = b.
Proof.
  intros Hst Hsoon. induction Hsoon as [|[r ok] calls Hr _ IH]; [reflexivity|].
  rewrite fmap_cons. cbn [run_ops fold_left fst snd].
  rewrite step_call, (call_enter_open_waiting r b Hst Hr). exact IH.
Qed.

(** Opened at 1000 with a reset timeout of 5000 ms: calls at 2000, 3000 and
    5999 leave the breaker as it is. *)
Lemma rejected_calls_change_nothing_witness :
  run_ops ((λ c, OpCall c.1 c.2) <$>
             [(mkReadings 2000 2000 2000, true); (mkReadings 3000 3000 3000, false);
              (mkReadings 5999 5999 5999, true)])
    (mkBreaker 1 5000 Open 1 1000)
  = mkBreaker 1 5000 Open 1 1000.
Proof.
  apply (rejected_calls_change_nothing (mkBreaker 1 5000 Open 1 1000)
           [(mkReadings 2000 2000 2000, true); (mkReadings 3000 3000 3000, false);
            (mkReadings 5999 5999 5999, true)]).
  - reflexivity.
  - repeat constructor.
Defined.

(** A clock that reads [t] throughout a call. *)
Definition at_time (t : Z) : readings := mkReadings t t t.

(** X19: The retry hint is exact: if a call at time [t] is rejected with
    [retryAfterMs = r], then [r > 0], [t + r] is [openedAt + resetTimeoutMs],
    and a later call is let through to [fn] exactly when it comes at
    [t + r] or after. *)
Theorem retry_hint_is_exact (b : breaker) (t t' r : Z) :
  (call_enter (at_time t) b).1 = Reject r →
  0 < r
  ∧ t + r = openedAt b + resetTimeoutMs b
  ∧ ((call_enter (at_time t') b).1 = Invoke ↔ t + r <= t').
Proof.
  unfold call_enter, shouldTransitionToHalfOpen, at_time. cbn [atCheck atReject].
  destruct b as [ft rt st cf oa]. cbn [state resetTimeoutMs openedAt].
  destruct st; cbn [fst state]; try discriminate.
  destruct (Z.leb_spec rt (t - oa)) as [Hge|Hlt]; cbn [fst state openedAt resetTimeoutMs];
    [discriminate|].
  intros [= <-].
  split; [lia|]. split; [lia|].
  destruct (Z.leb_spec rt (t' - oa)) as [Hge'|Hlt']; cbn [fst state].
  - split; [intros _; lia | reflexivity].
  - split; [discriminate | lia].
Qed.

(** The test of the repository: rejected at 2000 with 4000 ms to wait, let
    through from 6000 on. *)
Lemma retry_hint_is_exact_witness :
  0 < 4000
  ∧ 2000 + 4000 = openedAt (mkBreaker 1 5000 Open 1 1000)
                  + resetTimeoutMs (mkBreaker 1 5000 Open 1 1000)
  ∧ ((call_enter (at_time 6000) (mkBreaker 1 5000 Open 1 1000)).1 = Invoke
     ↔ 2000 + 4000 <= 6000).
Proof.
  apply (retry_hint_is_exact (mkBreaker 1 5000 Open 1 1000) 2000 6000 4000).
  reflexivity.
Defined.

(** ** Probes in flight together *)

(** X20: Nothing limits the number of probes.  When two calls enter an open
    breaker whose timeout has elapsed before either [fn] has settled, both
    are let through.  If the first then fails and the second succeeds, the
    breaker stays open (re-armed at the failure) with the counter cleared:
    the late success does not close it.  If the first succeeds and the
    second fails, the failure counts against the closed breaker, which
    opens again when the threshold is 1. *)
Theorem overlapping_probes (b : breaker) (r1 r2 : readings) (tFail : Z) :
  state b = Open →
  resetTimeoutMs b <= atCheck r1 - openedAt b →
  let b1 := (call_enter r1 b).2 in
  (call_enter r1 b).1 = Invoke
  ∧ call_enter r2 b1 = (Invoke, b1)
  ∧ on_success (on_failure tFail b1)
    = mkBreaker (failureThreshold b) (resetTimeoutMs b) Open 0 tFail
  ∧ on_failure tFail (on_success b1)
    = (if failureThreshold b <=? 1
       then mkBreaker (failureThreshold b) (resetTimeoutMs b) Open 1 tFail
       else mkBreaker (failureThreshold b) (resetTimeoutMs b) Closed 1 0).
Proof.
  intros Hst Hge b1. subst b1.
  rewrite (call_enter_open_elapsed r1 b Hst Hge). cbn [fst snd].
  split; [reflexivity|]. split; [reflexivity|]. split; [reflexivity|].
  unfold on_success, on_failure, transitionToClosed, transitionToOpen.
  cbn [state failureThreshold resetTimeoutMs consecutiveFailures openedAt].
  change (0 + 1) with 1. destruct (failureThreshold b <=? 1); reflexivity.
Qed.

(** Two probes at 6000 into a breaker opened at 1000: the first fails at
    6100, the second succeeds after that, and the breaker is still open. *)
Lemma overlapping_probes_witness :
  (call_enter (at_time 6000) (mkBreaker 1 5000 Open 1 1000)).1 = Invoke
  ∧ call_enter (at_time 6000) (call_enter (at_time 6000) (mkBreaker 1 5000 Open 1 1000)).2
    = (Invoke, (call_enter (at_time 6000) (mkBreaker 1 5000 Open 1 1000)).2)
  ∧ on_success (on_failure 6100 (call_enter (at_time 6000) (mkBreaker 1 5000 Open 1 1000)).2)
    = mkBreaker 1 5000 Open 0 6100
  ∧ on_failure 6100 (on_success (call_enter (at_time 6000) (mkBreaker 1 5000 Open 1 1000)).2)
    = mkBreaker 1 5000 Open 1 6100.
Proof.
  apply (overlapping_probes (mkBreaker 1 5000 Open 1 1000) (at_time 6000) (at_time 6000) 6100).
  - reflexivity.
  - vm_compute. discriminate.
Defined.

End CircuitBreaker.

(* ================================================================== *)
(** * Throttle ([throttle.ts]) *)
(* ================================================================== *)

Module Throttle.

Section Throttled.
Context {Args : Type}.

(** The closure state of [throttle]: the constant [interval], the variables
    [timer], [lastCallTime] and [pendingArgs], and the log of the calls made
    to the wrapped [fn] (the value [lastCallTime] took, and the arguments).
    A scheduled timeout is the clock value at which it falls due. *)
Record state : Type := mkState {
  interval : Z;
  timer : option Z;
  lastCallTime : Z;
  pendingArgs : option Args;
  invocations : list (Z * Args);
}.

Definition throttle (intervalMs : Q) : state :=
  {| interval := clamp_floor 0 intervalMs;
     timer := None;
     lastCallTime := 0;
     pendingArgs := None;
     invocations := [] |}.

(** [invoke]: [now] is the value [Date.now()] returns in it. *)
Definition invoke (now : Z) (args : Args) (s : state) : state :=
  mkState (interval s) (timer s) now (pendingArgs s) (invocations s ++ [(now, args)]).

Definition clearPending (s : state) : state :=
  mkState (interval s) None (lastCallTime s) None (invocations s).

(** A call of the throttled function: [now] is read to compute [elapsed],
    [nowInvoke] is read by [invoke] if the call goes through.  The timeout is
    set for [interval - elapsed] after [now]. *)
Definition throttled (now nowInvoke : Z) (args : Args) (s : state) : state :=
  let elapsed := now - lastCallTime s in
  if interval s <=? elapsed
  then invoke nowInvoke args (clearPending s)
  else
    let due := match timer s with
               | None => Some (now + (interval s - elapsed))
               | Some d => Some d
               end in
    mkState (interval s) due (lastCallTime s) (Some args) (invocations s).

(** The callback given to [setTimeout]. *)
Definition timer_callback (now : Z) (s : state) : state :=
  let s := mkState (interval s) None (lastCallTime s) (pendingArgs s) (invocations s) in
  match pendingArgs s with
  | Some saved =>
      invoke now saved
        (mkState (interval s) (timer s) (lastCallTime s) None (invocations s))
  | None => s
  end.

(** The host runs the callback of a scheduled timeout, and not before it is
    due; [None] when there is nothing to run at [now]. *)
Definition fire (now : Z) (s : state) : option state :=
  match timer s with
  | Some due => if due <=? now then Some (timer_callback now s) else None
  | None => None
  end.

Definition cancel (s : state) : state := clearPending s.

Definition flush (now : Z) (s : state) : state :=
  match pendingArgs s with
  | Some saved =>
      invoke now saved
        (mkState (interval s) None (lastCallTime s) None (invocations s))
  | None => s
  end.

(** A call during which the clock reads [t] throughout. *)
Definition call_at (t : Z) (args : Args) (s : state) : state :=
  throttled t t args s.

(** Calls one after the other, each with its clock reading. *)
Definition calls (cs : list (Z * Args)) (s : state) : state :=
  fold_left (λ s c, call_at c.1 c.2 s) cs s.

(** ** Facts about the throttle *)

(** Nothing is scheduled and nothing is pending: the state right after a
    real invocation, or after the trailing call has fired. *)
Definition quiescent (s : state) : Prop := timer s = None ∧ pendingArgs s = None.

Lemma throttled_leading now nowInvoke args s :
  interval s <= now - lastCallTime s →
  throttled now nowInvoke args s
  = mkState (interval s) None nowInvoke None (invocations s ++ [(nowInvoke, args)]).
Proof.
  intros Hquiet. unfold throttled.
  destruct (Z.leb_spec (interval s) (now - lastCallTime s)); [reflexivity | lia].
Qed.

Lemma throttled_suppressed now nowInvoke args s :
  now - lastCallTime s < interval s →
  throttled now nowInvoke args s
  = mkState (interval s)
            (Some (default (lastCallTime s + interval s) (timer s)))
            (lastCallTime s) (Some args) (invocations s).
Proof.
  intros Hsoon. unfold throttled.
  destruct (Z.leb_spec (interval s) (now - lastCallTime s)); [lia|].
  destruct (timer s) as [d|]; simpl; [reflexivity|].
  do 2 f_equal. lia.
Qed.

(** Calls that all arrive within [interval] of the last invocation: none
    goes through, the arguments of the last one are kept, and one timeout is
    due [interval] after that invocation. *)
Lemma calls_coalesced cs : ∀ c s,
  Forall (λ c', c'.1 - lastCallTime s < interval s) (c :: cs) →
  calls (c :: cs) s
  = mkState (interval s)
            (Some (default (lastCallTime s + interval s) (timer s)))
            (lastCallTime s) (last ((c :: cs).*2)) (invocations s).
Proof.
  induction cs as [|c' cs IH]; intros c s Hsoon.
  - apply Forall_cons in Hsoon as [Hc _]. unfold calls, call_at. simpl.
    apply throttled_suppressed, Hc.
  - apply Forall_cons in Hsoon as [Hc Hrest].
    change (calls (c :: c' :: cs) s) with (calls (c' :: cs) (call_at c.1 c.2 s)).
    unfold call_at. rewrite (throttled_suppressed _ _ _ _ Hc).
    rewrite IH by exact Hrest. simpl. reflexivity.
Qed.

Lemma fire_due now due s :
  timer s = Some due → due <= now → fire now s = Some (timer_callback now s).
Proof.
  intros Ht Hdue. unfold fire. rewrite Ht.
  destruct (Z.leb_spec due now); [reflexivity | lia].
Qed.

Lemma fire_early now due s : timer s = Some due → now < due → fire now s = None.
Proof.
  intros Ht Hdue. unfold fire. rewrite Ht.
  destruct (Z.leb_spec due now); [lia | reflexivity].
Qed.

(** X29: for [intervalMs = 100], three calls that all arrive at
    one clock reading [t0] with [t0 >= 100] (the throttle measures quiescence
    from [lastCallTime], which starts at 0) invoke [fn] at once, exactly
    once, with the first call's arguments, and exactly once more, with the
    third call's arguments, when the timeout due at [t0 + 100] fires.  More
    generally a call arriving when [now - lastCallTime >= interval] runs
    synchronously, and calls arriving within [interval] of the last real
    invocation are coalesced: none runs, and the single timeout, due
    [interval] after that invocation, runs [fn] once with the arguments of
    the most recent call. *)
Theorem throttle_coalesces_trailing_calls (a b c : Args) (t0 : Z) :
  100 <= t0 →
  let s1 := call_at t0 a (throttle 100%Q) in
  let s3 := call_at t0 c (call_at t0 b s1) in
  (invocations s1 = [(t0, a)]
   ∧ invocations s3 = [(t0, a)]
   ∧ timer s3 = Some (t0 + 100)
   ∧ (∀ t, t < t0 + 100 → fire t s3 = None)
   ∧ (∀ t, t0 + 100 <= t →
        ∃ s', fire t s3 = Some s'
              ∧ invocations s' = [(t0, a); (t, c)]
              ∧ quiescent s' ∧ ∀ t', fire t' s' = None))
  ∧ (∀ s now nowInvoke args,
       interval s <= now - lastCallTime s →
       invocations (throttled now nowInvoke args s)
       = invocations s ++ [(nowInvoke, args)]
       ∧ lastCallTime (throttled now nowInvoke args s) = nowInvoke
       ∧ quiescent (throttled now nowInvoke args s))
  ∧ (∀ s cs t args,
       quiescent s →
       Forall (λ c', c'.1 - lastCallTime s < interval s) (cs ++ [(t, args)]) →
       let s' := calls (cs ++ [(t, args)]) s in
       invocations s' = invocations s
       ∧ pendingArgs s' = Some args
       ∧ timer s' = Some (lastCallTime s + interval s)
       ∧ (∀ t', t' < lastCallTime s + interval s → fire t' s' = None)
       ∧ (∀ t', lastCallTime s + interval s <= t' →
            ∃ s'', fire t' s' = Some s''
                   ∧ invocations s'' = invocations s ++ [(t', args)]
                   ∧ lastCallTime s'' = t'
                   ∧ quiescent s'')).
Proof.
  intros Ht0 s1 s3.
  assert (Hnew : throttle 100%Q = mkState 100 None 0 None []) by reflexivity.
  assert (Hs1 : s1 = mkState 100 None t0 None [(t0, a)]).
  { unfold s1, call_at. rewrite Hnew.
    rewrite throttled_leading; [reflexivity | simpl; lia]. }
  assert (Hs3 : s3 = mkState 100 (Some (t0 + 100)) t0 (Some c) [(t0, a)]).
  { unfold s3, call_at. rewrite Hs1.
    rewrite (throttled_suppressed t0 t0 b) by (simpl; lia). simpl.
    rewrite (throttled_suppressed t0 t0 c) by (simpl; lia). reflexivity. }
  split; [|split].
  - rewrite Hs1, Hs3. simpl.
    split; [reflexivity|]. split; [reflexivity|]. split; [reflexivity|].
    split.
    + intros t Ht. apply (fire_early t (t0 + 100)); [reflexivity | exact Ht].
    + intros t Ht. eexists. split.
      * apply (fire_due t (t0 + 100)); [reflexivity | exact Ht].
      * unfold timer_callback, invoke, quiescent, fire; simpl.
        repeat split; reflexivity.
  - intros s now nowInvoke args Hquiet.
    rewrite (throttled_leading now nowInvoke args s Hquiet).
    unfold quiescent; simpl. repeat split; reflexivity.
  - intros s cs t args [Htimer Hpending] Hsoon s'.
    assert (Hs' : s' = mkState (interval s) (Some (lastCallTime s + interval s))
                         (lastCallTime s) (Some args) (invocations s)).
    { unfold s'. destruct (cs ++ [(t, args)]) as [|c0 cs0] eqn:Hcs.
      - destruct cs; discriminate Hcs.
      - rewrite (calls_coalesced cs0 c0 s Hsoon), Htimer, <- Hcs.
        rewrite fmap_app. change ([(t, args)].*2) with [args].
        rewrite last_snoc. reflexivity. }
    rewrite Hs'. simpl.
    split; [reflexivity|]. split; [reflexivity|]. split; [reflexivity|].
    split.
    + intros t' Ht'.
      apply (fire_early t' (lastCallTime s + interval s)); [reflexivity | exact Ht'].
    + intros t' Ht'. eexists. split.
      * apply (fire_due t' (lastCallTime s + interval s)); [reflexivity | exact Ht'].
      * unfold timer_callback, invoke, quiescent; simpl. repeat split; reflexivity.
Qed.

(** ** Programs on a throttled function *)

(** What can happen to a throttled function: a call (with the clock as read
    for [elapsed] and as read by [invoke]), the host running a timeout that
    is due, [cancel()], and [flush()]. *)
Inductive op : Type :=
| Call (now nowInvoke : Z) (args : Args)
| TimerFires (now : Z)
| Cancel
| Flush (now : Z).

(** A timeout that is not due (or does not exist) does not run. *)
Definition step (s : state) (o : op) : state :=
  match o with
  | Call now nowInvoke args => throttled now nowInvoke args s
  | TimerFires now => default s (fire now s)
  | Cancel => cancel s
  | Flush now => flush now s
  end.

Definition run_ops (ops : list op) (s : state) : state := fold_left step ops s.

(** The clock values at which the wrapped function was called. *)
Definition invocation_times (s : state) : list Z := (invocations s).*1.

(** What every program maintains: a timeout is scheduled exactly while
    arguments are pending, and it is due [interval] after the last
    invocation. *)
Record armed_consistently (s : state) : Prop := {
  armed_iff_pending : timer s = None ↔ pendingArgs s = None;
  armed_due : ∀ due, timer s = Some due → due = lastCallTime s + interval s;
}.

Lemma armed_step s o : armed_consistently s → armed_consistently (step s o).
Proof.
  intros [Hiff Hdue]. destruct o as [now nowInvoke args|now| |now]; unfold step.
  - unfold throttled.
    destruct (interval s <=? now - lastCallTime s).
    + constructor; simpl; [split; reflexivity | discriminate].
    + constructor; simpl.
      * destruct (timer s); split; discriminate.
      * intros due. destruct (timer s) as [d|] eqn:Ht.
        -- intros [= <-]. apply Hdue. reflexivity.
        -- intros [= <-]. lia.
  - unfold fire. destruct (timer s) as [d|] eqn:Ht;
      [|change (armed_consistently s); constructor; rewrite Ht; assumption].
    destruct (d <=? now);
      [|change (armed_consistently s); constructor; rewrite Ht; assumption].
    change (armed_consistently (timer_callback now s)).
    unfold timer_callback. cbn [pendingArgs].
    destruct (pendingArgs s) as [saved|] eqn:Hp.
    + constructor; simpl; [split; reflexivity | discriminate].
    + constructor; simpl; [split; reflexivity | discriminate].
  - constructor; simpl; [split; reflexivity | discriminate].
  - unfold flush. destruct (pendingArgs s) as [saved|] eqn:Hp.
    + constructor; simpl; [split; reflexivity | discriminate].
    + constructor; [rewrite Hp; exact Hiff | exact Hdue].
Qed.

Lemma armed_run_ops ops : ∀ s, armed_consistently s → armed_consistently (run_ops ops s).
Proof.
  induction ops as [|o ops IH]; intros s Hs; [exact Hs|].
  apply IH, armed_step, Hs.
Qed.

Lemma armed_throttle q : armed_consistently (throttle q).
Proof. constructor; simpl; [split; reflexivity | discriminate]. Qed.

Lemma interval_step s o : interval (step s o) = interval s.
Proof.
  destruct o as [now nowInvoke args|now| |now]; unfold step.
  - unfold throttled. destruct (interval s <=? now - lastCallTime s); reflexivity.
  - unfold fire. destruct (timer s) as [d|]; [|reflexivity].
    destruct (d <=? now); [|reflexivity].
    unfold timer_callback. cbn [default pendingArgs]. destruct (pendingArgs s); reflexivity.
  - reflexivity.
  - unfold flush. destruct (pendingArgs s); reflexivity.
Qed.

Lemma interval_run_ops ops : ∀ s, interval (run_ops ops s) = interval s.
Proof.
  induction ops as [|o ops IH]; intros s; [reflexivity|].
  change (run_ops (o :: ops) s) with (run_ops ops (step s o)).
  rewrite IH. apply interval_step.
Qed.

(** X21: At most one timeout, and only for pending arguments: after any program
    a timeout is scheduled exactly when arguments are pending, and it is
    due at [lastCallTime + interval]. *)
Theorem timer_armed_iff_pending (intervalMs : Q) (ops : list op) :
  let s := run_ops ops (throttle intervalMs) in
  (timer s = None ↔ pendingArgs s = None)
  ∧ (∀ due, timer s = Some due → due = lastCallTime s + interval s)
  ∧ interval s = Z.max 0 (Qfloor intervalMs).
Proof.
  intros s.
  destruct (armed_run_ops ops _ (armed_throttle intervalMs)) as [Hiff Hdue].
  split; [exact Hiff|]. split; [exact Hdue|].
  unfold s. rewrite interval_run_ops. reflexivity.
Qed.

(** X22: Every call is either run at once or kept for the one timeout.  In any
    state a program can reach, a call at clock value [t] with arguments
    [args] either invokes [fn] with them synchronously and leaves nothing
    scheduled, or invokes nothing, replaces the pending arguments by
    [args], and leaves a timeout due at [lastCallTime + interval]; when
    that timeout runs, [fn] is invoked once with [args]. *)
Theorem call_runs_now_or_waits
    (intervalMs : Q) (ops : list op) (t : Z) (args : Args) :
  let s := run_ops ops (throttle intervalMs) in
  let s' := call_at t args s in
  (interval s <= t - lastCallTime s
   ∧ invocations s' = invocations s ++ [(t, args)]
   ∧ quiescent s')
  ∨ (t - lastCallTime s < interval s
     ∧ invocations s' = invocations s
     ∧ pendingArgs s' = Some args
     ∧ timer s' = Some (lastCallTime s + interval s)
     ∧ (∀ t', t' < lastCallTime s + interval s → fire t' s' = None)
     ∧ (∀ t', lastCallTime s + interval s <= t' →
          ∃ s'', fire t' s' = Some s''
                 ∧ invocations s'' = invocations s ++ [(t', args)]
                 ∧ quiescent s'')).
Proof.
  intros s s'.
  destruct (armed_run_ops ops _ (armed_throttle intervalMs)) as [_ Hdue].
  fold s in Hdue.
  destruct (Z.le_gt_cases (interval s) (t - lastCallTime s)) as [Hlead|Hsoon].
  - left. unfold s', call_at. rewrite (throttled_leading t t args s Hlead).
    unfold quiescent; simpl. repeat split; assumption.
  - right. assert (Hs' : s' = mkState (interval s) (Some (lastCallTime s + interval s))
                                  (lastCallTime s) (Some args) (invocations s)).
    { unfold s', call_at. rewrite (throttled_suppressed t t args s) by lia.
      destruct (timer s) as [d|] eqn:Ht; [|reflexivity].
      simpl. rewrite (Hdue d eq_refl). reflexivity. }
    rewrite Hs'. simpl.
    split; [lia|]. split; [reflexivity|]. split; [reflexivity|]. split; [reflexivity|].
    split.
    + intros t' Ht'.
      apply (fire_early t' (lastCallTime s + interval s)); [reflexivity | exact Ht'].
    + intros t' Ht'. eexists. split.
      * apply (fire_due t' (lastCallTime s + interval s)); [reflexivity | exact Ht'].
      * unfold timer_callback, invoke, quiescent; simpl. repeat split; reflexivity.
Qed.

(** X23: [cancel] and [flush] disarm the timer.  In any state a program can
    reach, [cancel()] invokes nothing, and [flush()] invokes [fn] once with
    the pending arguments if there are any and nothing otherwise; after
    either, nothing is pending, no timeout can run, and a further [flush]
    does nothing. *)
Theorem cancel_and_flush_disarm (intervalMs : Q) (ops : list op) (now : Z) :
  let s := run_ops ops (throttle intervalMs) in
  (invocations (cancel s) = invocations s
   ∧ quiescent (cancel s)
   ∧ (∀ t, fire t (cancel s) = None)
   ∧ (∀ t, flush t (cancel s) = cancel s))
  ∧ (invocations (flush now s)
     = invocations s ++ match pendingArgs s with
                        | Some saved => [(now, saved)]
                        | None => []
                        end
     ∧ quiescent (flush now s)
     ∧ (∀ t, fire t (flush now s) = None)
     ∧ (∀ t, flush t (flush now s) = flush now s)).
Proof.
  intros s.
  destruct (armed_run_ops ops _ (armed_throttle intervalMs)) as [Hiff _].
  fold s in Hiff. split.
  - unfold cancel, clearPending, quiescent, fire, flush; simpl. repeat split.
  - unfold flush. destruct (pendingArgs s) as [saved|] eqn:Hp.
    + unfold invoke, quiescent, fire; simpl. repeat split.
    + assert (Ht : timer s = None) by (apply Hiff; reflexivity).
      rewrite app_nil_r. unfold quiescent, fire. rewrite Ht, Hp. repeat split.
Qed.

(** ** At most once per interval *)

Definition is_flush (o : op) : Prop :=
  match o with Flush _ => True | _ => False end.

(** The clock does not move between the two readings of a call. *)
Definition steady_clock (o : op) : Prop :=
  match o with Call now nowInvoke _ => now = nowInvoke | _ => True end.

Lemma spaced_step s o :
  armed_consistently s → ¬ is_flush o → steady_clock o →
  last (0 :: invocation_times s) = Some (lastCallTime s) →
  Sorted (λ a b, a + interval s <= b) (0 :: invocation_times s) →
  last (0 :: invocation_times (step s o)) = Some (lastCallTime (step s o))
  ∧ Sorted (λ a b, a + interval s <= b) (0 :: invocation_times (step s o)).
Proof.
  intros [Hiff Hdue] Hnf Hsteady Hlast Hsorted.
  assert (Hsnoc : ∀ t args, lastCallTime s + interval s <= t →
            last (0 :: (invocations s ++ [(t, args)]).*1) = Some t
            ∧ Sorted (λ a b, a + interval s <= b) (0 :: (invocations s ++ [(t, args)]).*1)).
  { intros t args Ht. rewrite fmap_app. change ([(t, args)].*1) with [t].
    change (0 :: (invocations s).*1 ++ [t]) with ((0 :: (invocations s).*1) ++ [t]).
    split; [apply last_snoc|].
    unfold invocation_times in *. apply Sorted_snoc; [exact Hsorted|].
    apply last_Some in Hlast as [front Hfront]. rewrite Hfront.
    constructor. exact Ht. }
  destruct o as [now nowInvoke args|now| |now]; unfold step, invocation_times in *.
  - simpl in Hsteady. subst nowInvoke. unfold throttled.
    destruct (Z.leb_spec (interval s) (now - lastCallTime s)) as [Hlead|Hsoon].
    + cbn [invoke clearPending invocations lastCallTime]. apply Hsnoc. lia.
    + cbn [invocations lastCallTime]. split; assumption.
  - unfold fire. destruct (timer s) as [d|] eqn:Ht; [|split; assumption].
    destruct (Z.leb_spec d now) as [Hdue'|Hearly]; [|split; assumption].
    unfold timer_callback. cbn [default pendingArgs].
    destruct (pendingArgs s) as [saved|] eqn:Hp.
    + cbn [invoke invocations lastCallTime]. apply Hsnoc.
      rewrite <- (Hdue d eq_refl). exact Hdue'.
    + cbn [invocations lastCallTime]. split; assumption.
  - cbn [cancel clearPending invocations lastCallTime]. split; assumption.
  - simpl in Hnf. contradiction.
Qed.

Lemma spaced_run_ops ops : ∀ s,
  armed_consistently s →
  Forall (λ o, ¬ is_flush o ∧ steady_clock o) ops →
  last (0 :: invocation_times s) = Some (lastCallTime s) →
  Sorted (λ a b, a + interval s <= b) (0 :: invocation_times s) →
  Sorted (λ a b, a + interval s <= b) (0 :: invocation_times (run_ops ops s)).
Proof.
  induction ops as [|o ops IH]; intros s Harmed Hops Hlast Hsorted; [exact Hsorted|].
  apply Forall_cons in Hops as [[Hnf Hsteady] Hops].
  destruct (spaced_step s o Harmed Hnf Hsteady Hlast Hsorted) as [Hlast1 Hsorted1].
  change (run_ops (o :: ops) s) with (run_ops ops (step s o)).
  rewrite <- (interval_step s o).
  apply IH; [apply armed_step, Harmed | exact Hops | exact Hlast1 |].
  rewrite interval_step. exact Hsorted1.
Qed.

(** X24: The throttle itself: in a program without [flush], with the clock not
    moving inside a call and timeouts run no earlier than they are due, any
    two consecutive invocations of [fn] are at least [interval] apart, and
    the first comes no earlier than clock value [interval]. *)
Theorem invocations_spaced_by_interval (intervalMs : Q) (ops : list op) :
  Forall (λ o, ¬ is_flush o ∧ steady_clock o) ops →
  Sorted (λ a b, a + Z.max 0 (Qfloor intervalMs) <= b)
         (0 :: invocation_times (run_ops ops (throttle intervalMs))).
Proof.
  intros Hops.
  apply (spaced_run_ops ops (throttle intervalMs) (armed_throttle intervalMs) Hops).
  - reflexivity.
  - repeat constructor.
Qed.

End Throttled.
Arguments state : clear implicits.

(** C9: the code departs from the claim, and from its own description
    (the leading call executes immediately), when the clock reads less than
    [intervalMs] at the first call.  [lastCallTime] starts at 0 and stands
    for no call at all, yet [throttled] measures [elapsed] from it: with
    [intervalMs = 100] and three calls at clock reading 0, [elapsed = 0 < 100]
    and the first call is not run at once but held back like the others;
    [fn] has not run after the three calls, and runs once, at 100, with the
    third call's arguments.  On an epoch clock the first call is likewise
    not run at once when the interval is longer than the time since the
    epoch. *)
Lemma first_call_at_clock_zero_is_deferred :
  let s1 := call_at 0 "a"%string (throttle 100%Q) in
  let s3 := call_at 0 "c"%string (call_at 0 "b"%string s1) in
  (invocations s1 = []
   ∧ pendingArgs s1 = Some "a"%string
   ∧ timer s1 = Some 100
   ∧ invocations s3 = []
   ∧ invocations <$> fire 100 s3 = Some [(100, "c"%string)])
  ∧ invocations (call_at 1790000000000 "a"%string (throttle 2000000000000%Q))
    = [].
Proof.
  cbv zeta. split; [|reflexivity].
  split; [reflexivity|]. split; [reflexivity|]. split; [reflexivity|].
  split; reflexivity.
Qed.

(** The three calls of the specification at clock reading 1000. *)
Lemma throttle_coalesces_trailing_calls_witness :
  invocations (call_at 1000 "a"%string (throttle 100%Q)) = [(1000, "a"%string)]
  ∧ invocations (call_at 1000 "c"%string (call_at 1000 "b"%string
                   (call_at 1000 "a"%string (throttle 100%Q))))
    = [(1000, "a"%string)]
  ∧ invocations <$> fire 1100 (call_at 1000 "c"%string (call_at 1000 "b"%string
                      (call_at 1000 "a"%string (throttle 100%Q))))
    = Some [(1000, "a"%string); (1100, "c"%string)].
Proof.
  destruct (throttle_coalesces_trailing_calls "a"%string "b"%string "c"%string 1000)
    as [(H1 & H3 & _ & _ & Hfire) _]; [lia|].
  split; [exact H1|]. split; [exact H3|].
  destruct (Hfire 1100) as (s' & Hs' & Hinv & _); [lia|].
  rewrite Hs'. simpl. rewrite Hinv. reflexivity.
Defined.

(** The other scenarios of the specification: [cancel] suppresses the
    trailing call, [flush] forces it and leaves nothing for the timer, and
    an interval of 0 lets every call through. *)
Example cancel_suppresses_trailing_call :
  let s := cancel (call_at 1000 "b"%string (call_at 1000 "a"%string (throttle 100%Q))) in
  invocations s = [(1000, "a"%string)] ∧ fire 1100 s = None ∧ fire 1200 s = None.
Proof. repeat split. Qed.

Example flush_forces_trailing_call :
  let s := flush 1000 (call_at 1000 "b"%string
                         (call_at 1000 "a"%string (throttle 100%Q))) in
  invocations s = [(1000, "a"%string); (1000, "b"%string)]
  ∧ fire 1100 s = None ∧ fire 1200 s = None.
Proof. repeat split. Qed.

Example zero_interval_always_invokes :
  invocations (call_at 0 "b"%string (call_at 0 "a"%string (throttle 0%Q)))
  = [(0, "a"%string); (0, "b"%string)].
Proof. reflexivity. Qed.

(** Two calls at 1000, the timeout at 1100, a call at 1150 and its timeout
    at 1200: [fn] runs at 1000, 1100 and 1200. *)
Lemma invocations_spaced_by_interval_witness :
  Sorted (λ a b, a + Z.max 0 (Qfloor 100%Q) <= b)
         (0 :: invocation_times
                 (run_ops [Call 1000 1000 "a"%string; Call 1000 1000 "b"%string;
                           TimerFires 1100; Call 1150 1150 "c"%string; TimerFires 1200]
                    (throttle 100%Q))).
Proof.
  apply (invocations_spaced_by_interval 100%Q
           [Call 1000 1000 "a"%string; Call 1000 1000 "b"%string;
            TimerFires 1100; Call 1150 1150 "c"%string; TimerFires 1200]).
  repeat (constructor; [split; [intros [] | first [reflexivity | exact I]]|]).
  constructor.
Defined.

Example three_spaced_invocations :
  invocations (run_ops [Call 1000 1000 "a"%string; Call 1000 1000 "b"%string;
                        TimerFires 1100; Call 1150 1150 "c"%string; TimerFires 1200]
                 (throttle 100%Q))
  = [(1000, "a"%string); (1100, "b"%string); (1200, "c"%string)].
Proof. reflexivity. Qed.

End Throttle.

(* ================================================================== *)
(** * Missions controller ([controllers/missions.ts]) *)
(* ================================================================== *)

Module Missions.

(** ["pending" | "running" | "completed" | "failed" | "cancelled"] *)
Inductive MissionStatus : Type :=
| Pending
| Running
| Completed
| Failed
| Cancelled.

(** The text a status has inside a template literal. *)
Definition status_text (s : MissionStatus) : string :=
  match s with
  | Pending => "pending"
  | Running => "running"
  | Completed => "completed"
  | Failed => "failed"
  | Cancelled => "cancelled"
  end.

Inductive MissionPriority : Type :=
| Low
| Medium
| High
| Critical.

Record MissionTimelineEntry : Type := mkEntry {
  timestamp : Z;
  event : string;
  agentId : option string;
  detail : option string;
}.

Record Mission : Type := mkMission {
  id : string;
  name : string;
  description : string;
  status : MissionStatus;
  priority : MissionPriority;
  agents : list string;
  createdAt : Z;
  updatedAt : Z;
  completedAt : option Z;
  progress : Z;
  timeline : list MissionTimelineEntry;
  tags : list string;
}.

(** [MissionsFormState], and [Partial<MissionsFormState>] for patches. *)
Module Form.
Record t : Type := mk {
  name : string;
  description : string;
  priority : MissionPriority;
  agents : string;
  tags : string;
}.
Record patch : Type := mkPatch {
  p_name : option string;
  p_description : option string;
  p_priority : option MissionPriority;
  p_agents : option string;
  p_tags : option string;
}.
End Form.

Record MissionsState : Type := mkState {
  missionsLoading : bool;
  missions : list Mission;
  missionsError : option string;
  missionsForm : Form.t;
  missionsShowForm : bool;
  missionsSelectedId : option string;
}.

Definition DEFAULT_MISSIONS_FORM : Form.t :=
  Form.mk "" "" Medium "" "".

(** [s.split(",")]: the pieces between commas, at least one. *)
Fixpoint split_comma (s : string) : list string :=
  match s with
  | EmptyString => [EmptyString]
  | String c rest =>
      if decide (String c EmptyString = ",")
      then EmptyString :: split_comma rest
      else match split_comma rest with
           | piece :: pieces => String c piece :: pieces
           | [] => [String c EmptyString]
           end
  end.

(** [Boolean(s)] on a string, and an optional argument used as a condition. *)
Definition nonempty (s : string) : bool := negb (bool_decide (s = EmptyString)).

Definition if_truthy (o : option string) : option string :=
  match o with
  | Some s => if nonempty s then Some s else None
  | None => None
  end.

(** The state the tests start from ([makeState()]). *)
Definition empty_state : MissionsState :=
  mkState false [] None DEFAULT_MISSIONS_FORM false None.

Section Controller.
(** The environment: [String.prototype.trim], the successive values of
    [Date.now()], and the identifier [generateId()] returns when it is
    called at a given position of that sequence (it depends on the clock
    and on [Math.random()]). *)
Variable trim : string → string.
Variable clock : nat → Z.
Variable generateId : nat → string.

(** Every function that reads the clock takes the number [n] of readings
    made so far and returns the number made when it is done. *)
Definition addTimelineEntry (n : nat) (mission : Mission) (event : string)
    (detail agentId : option string) : Mission * nat :=
  let entry := mkEntry (clock n) event (if_truthy agentId) (if_truthy detail) in
  (mkMission (id mission) (name mission) (description mission) (status mission)
     (priority mission) (agents mission) (createdAt mission) (clock (S n))
     (completedAt mission) (progress mission) (timeline mission ++ [entry])
     (tags mission),
   S (S n)).

Definition loadMissions (st : MissionsState) : MissionsState :=
  mkState false (missions st) (missionsError st) (missionsForm st)
          (missionsShowForm st) (missionsSelectedId st).

Definition parse_list (s : string) : list string :=
  filter (λ piece, nonempty piece = true) (trim <$> split_comma s).

Definition createMission (n : nat) (st : MissionsState) : MissionsState * nat :=
  let form := missionsForm st in
  if nonempty (trim (Form.name form))
  then
    let now := clock n in
    let mission :=
      mkMission (generateId (S n)) (trim (Form.name form))
        (trim (Form.description form)) Pending (Form.priority form)
        (parse_list (Form.agents form)) now now None 0
        [mkEntry now "Mission created" None None]
        (parse_list (Form.tags form)) in
    (mkState (missionsLoading st) (mission :: missions st) None
       DEFAULT_MISSIONS_FORM false (Some (id mission)),
     S (S n))
  else
    (mkState (missionsLoading st) (missions st) (Some "Mission name is required.")
       (missionsForm st) (missionsShowForm st) (missionsSelectedId st),
     n).

(** The callback of [missions.map] for a mission whose id matches. *)
Definition update_one (n : nat) (new_status : MissionStatus) (m : Mission)
  : Mission * nat :=
  let updatedAt1 := clock n in
  let n := S n in
  let '(completedAt1, progress1, n) :=
    match new_status with
    | Completed => (Some (clock n), 100, S n)
    | _ => (completedAt m, progress m, n)
    end in
  let progress2 :=
    match new_status with
    | Running => if bool_decide (progress m = 0) then 10 else progress1
    | _ => progress1
    end in
  addTimelineEntry n
    (mkMission (id m) (name m) (description m) new_status (priority m) (agents m)
       (createdAt m) updatedAt1 completedAt1 progress2 (timeline m) (tags m))
    ("Status changed to " ++ status_text new_status) None None.

Fixpoint update_all (n : nat) (target : string) (new_status : MissionStatus)
    (ms : list Mission) : list Mission * nat :=
  match ms with
  | [] => ([], n)
  | m :: rest =>
      let '(m', n1) :=
        if decide (id m = target) then update_one n new_status m else (m, n) in
      let '(rest', n2) := update_all n1 target new_status rest in
      (m' :: rest', n2)
  end.

Definition updateMissionStatus (n : nat) (st : MissionsState) (target : string)
    (new_status : MissionStatus) : MissionsState * nat :=
  let '(ms, n') := update_all n target new_status (missions st) in
  let selected :=
    match new_status with
    | Completed | Cancelled => None
    | _ => missionsSelectedId st
    end in
  (mkState (missionsLoading st) ms (missionsError st) (missionsForm st)
     (missionsShowForm st) selected,
   n').

Definition deleteMission (st : MissionsState) (target : string) : MissionsState :=
  mkState (missionsLoading st)
    (filter (λ m, id m ≠ target) (missions st))
    (missionsError st) (missionsForm st) (missionsShowForm st)
    (if decide (missionsSelectedId st = Some target)
     then None else missionsSelectedId st).

Definition patchMissionForm (st : MissionsState) (p : Form.patch) : MissionsState :=
  let f := missionsForm st in
  mkState (missionsLoading st) (missions st) (missionsError st)
    (Form.mk (default (Form.name f) (Form.p_name p))
             (default (Form.description f) (Form.p_description p))
             (default (Form.priority f) (Form.p_priority p))
             (default (Form.agents f) (Form.p_agents p))
             (default (Form.tags f) (Form.p_tags p)))
    (missionsShowForm st) (missionsSelectedId st).

Definition toggleMissionsForm (st : MissionsState) : MissionsState :=
  let shown := negb (missionsShowForm st) in
  mkState (missionsLoading st) (missions st) (missionsError st)
    (if shown then DEFAULT_MISSIONS_FORM else missionsForm st)
    shown (missionsSelectedId st).

Definition selectMission (st : MissionsState) (sel : option string) : MissionsState :=
  mkState (missionsLoading st) (missions st) (missionsError st) (missionsForm st)
    (missionsShowForm st) sel.

(** A session: the controller calls the user interface makes. *)
Inductive op : Type :=
| OpLoad
| OpCreate
| OpUpdate (target : string) (new_status : MissionStatus)
| OpDelete (target : string)
| OpPatch (p : Form.patch)
| OpToggle
| OpSelect (sel : option string).

Definition step (sn : MissionsState * nat) (o : op) : MissionsState * nat :=
  let '(st, n) := sn in
  match o with
  | OpLoad => (loadMissions st, n)
  | OpCreate => createMission n st
  | OpUpdate target new_status => updateMissionStatus n st target new_status
  | OpDelete target => (deleteMission st target, n)
  | OpPatch p => (patchMissionForm st p, n)
  | OpToggle => (toggleMissionsForm st, n)
  | OpSelect sel => (selectMission st sel, n)
  end.

Definition run_ops (ops : list op) (sn : MissionsState * nat) : MissionsState * nat :=
  fold_left step ops sn.

(** ** Facts about the controller *)

(** How [updateMissionStatus] relates a mission to what it becomes. *)
Definition updated_from (target : string) (new_status : MissionStatus)
    (m m' : Mission) : Prop :=
  id m' = id m ∧ name m' = name m ∧ description m' = description m
  ∧ priority m' = priority m ∧ agents m' = agents m ∧ tags m' = tags m
  ∧ createdAt m' = createdAt m
  ∧ (id m ≠ target → m' = m)
  ∧ (id m = target →
       status m' = new_status
       ∧ ∃ entry, timeline m' = timeline m ++ [entry]
                  ∧ event entry = ("Status changed to " ++ status_text new_status)%string
                  ∧ agentId entry = None ∧ detail entry = None).

Lemma update_one_updated n new_status m :
  updated_from (id m) new_status m (update_one n new_status m).1.
Proof.
  unfold updated_from, update_one, addTimelineEntry.
  destruct new_status; cbn [fst id name description priority agents tags createdAt
                             status timeline];
    repeat (split; [reflexivity|]);
    (split; [intros Hne; contradiction|]);
    intros _; (split; [reflexivity|]); eexists; repeat split.
Qed.

Lemma update_all_updated target new_status ms : ∀ n,
  Forall2 (updated_from target new_status) ms (update_all n target new_status ms).1.
Proof.
  induction ms as [|m rest IH]; intros n; cbn [update_all]; [constructor|].
  destruct (decide (id m = target)) as [Heq|Hne].
  - pose proof (update_one_updated n new_status m) as Hone. rewrite Heq in Hone.
    destruct (update_one n new_status m) as [m' n1]. cbn [fst] in Hone.
    specialize (IH n1). destruct (update_all n1 target new_status rest) as [rest' n2].
    constructor; [exact Hone | exact IH].
  - specialize (IH n). destruct (update_all n target new_status rest) as [rest' n2].
    constructor; [|exact IH].
    unfold updated_from. repeat (split; [reflexivity|]).
    intros Heq. contradiction.
Qed.

(** X25: [updateMissionStatus] touches only the missions with the given id: the
    list keeps its length and order, every mission keeps its id, name,
    description, priority, agents, tags and creation time, missions with
    another id are unchanged, and a mission with that id gets the new status
    and exactly one more timeline entry, ["Status changed to <status>"].
    Nothing else of the state changes, except that the selection is cleared
    when the new status is completed or cancelled. *)
Theorem update_touches_only_target
    (n : nat) (st : MissionsState) (target : string) (new_status : MissionStatus) :
  let st' := (updateMissionStatus n st target new_status).1 in
  Forall2 (updated_from target new_status) (missions st) (missions st')
  ∧ id <$> missions st' = id <$> missions st
  ∧ missionsLoading st' = missionsLoading st
  ∧ missionsError st' = missionsError st
  ∧ missionsForm st' = missionsForm st
  ∧ missionsShowForm st' = missionsShowForm st
  ∧ missionsSelectedId st'
    = match new_status with
      | Completed | Cancelled => None
      | _ => missionsSelectedId st
      end.
Proof.
  intros st'. subst st'. unfold updateMissionStatus.
  pose proof (update_all_updated target new_status (missions st) n) as Hall.
  destruct (update_all n target new_status (missions st)) as [ms n']. cbn [fst] in *.
  cbn [missions missionsLoading missionsError missionsForm missionsShowForm
       missionsSelectedId].
  split; [exact Hall|]. split.
  - induction Hall as [|m m' ms0 ms1 Hm _ IH]; [reflexivity|].
    rewrite !fmap_cons, IH. destruct Hm as [Hid _]. rewrite Hid. reflexivity.
  - repeat split.
Qed.

(** What holds of every mission the controller has produced. *)
Record sound (m : Mission) : Prop := {
  sound_progress : progress m = 0 ∨ progress m = 10 ∨ progress m = 100;
  sound_completed : status m = Completed → progress m = 100 ∧ is_Some (completedAt m);
  sound_timeline : ∃ first rest, timeline m = first :: rest
                                 ∧ event first = "Mission created"
                                 ∧ timestamp first = createdAt m;
}.

Lemma sound_update_one n new_status m : sound m → sound (update_one n new_status m).1.
Proof.
  intros [Hp Hc (first & rest & Ht & He & Hts)].
  unfold update_one, addTimelineEntry. constructor.
  - destruct new_status; cbn [fst progress]; try exact Hp.
    + destruct (bool_decide (progress m = 0)); [right; left; reflexivity | exact Hp].
    + right. right. reflexivity.
  - destruct new_status; cbn [fst status progress completedAt]; try discriminate.
    intros _. split; [reflexivity | eexists; reflexivity].
  - destruct new_status; cbn [fst timeline createdAt]; rewrite Ht;
      eexists first, _; (split; [reflexivity|]); split; assumption.
Qed.

Lemma sound_update_all target new_status ms : ∀ n,
  Forall sound ms → Forall sound (update_all n target new_status ms).1.
Proof.
  induction ms as [|m rest IH]; intros n Hms; cbn [update_all]; [constructor|].
  apply Forall_cons in Hms as [Hm Hrest].
  destruct (decide (id m = target)).
  - pose proof (sound_update_one n new_status m Hm) as Hone.
    destruct (update_one n new_status m) as [m' n1]. cbn [fst] in Hone.
    specialize (IH n1 Hrest). destruct (update_all n1 target new_status rest).
    constructor; assumption.
  - specialize (IH n Hrest). destruct (update_all n target new_status rest).
    constructor; assumption.
Qed.

Lemma sound_step sn o :
  Forall sound (missions sn.1) → Forall sound (missions (step sn o).1).
Proof.
  destruct sn as [st n]. cbn [fst]. intros Hst.
  destruct o as [| |target new_status|target|p| |sel]; cbn [step fst];
    try exact Hst.
  - unfold createMission. destruct (nonempty (trim (Form.name (missionsForm st))));
      cbn [fst missions]; [|exact Hst].
    constructor; [|exact Hst].
    constructor; cbn [progress status timeline createdAt].
    + left. reflexivity.
    + discriminate.
    + eexists _, _. repeat split.
  - unfold updateMissionStatus.
    pose proof (sound_update_all target new_status (missions st) n Hst) as Hall.
    destruct (update_all n target new_status (missions st)). exact Hall.
  - cbn [deleteMission missions].
    rewrite Forall_forall in *. intros m Hm.
    apply list_elem_of_filter in Hm as [_ Hm]. apply Hst, Hm.
Qed.

(** X26: Progress and completion stay consistent.  In any session starting from
    the empty state, every listed mission has progress 0, 10 or 100; a
    completed mission has progress 100 and a completion time; and every
    timeline starts with the ["Mission created"] entry stamped with the
    creation time. *)
Theorem missions_stay_sound (ops : list op) :
  Forall sound (missions (run_ops ops (empty_state, 0%nat)).1).
Proof.
  unfold run_ops.
  assert (Hstart : Forall sound (missions (empty_state, 0%nat).1)) by constructor.
  revert Hstart. generalize (empty_state, 0%nat).
  induction ops as [|o ops IH]; intros sn Hsn; [exact Hsn|].
  apply IH, sound_step, Hsn.
Qed.

(** The selection names a listed mission, or nothing. *)
Definition selection_listed (st : MissionsState) : Prop :=
  match missionsSelectedId st with
  | Some sel => sel ∈ id <$> missions st
  | None => True
  end.

(** Every [selectMission] of the session names a mission listed at that
    moment, or clears the selection. *)
Fixpoint selects_listed (ops : list op) (sn : MissionsState * nat) : Prop :=
  match ops with
  | [] => True
  | o :: ops' =>
      match o with
      | OpSelect (Some sel) => sel ∈ id <$> missions sn.1
      | _ => True
      end
      ∧ selects_listed ops' (step sn o)
  end.

Lemma selection_listed_step sn o :
  match o with
  | OpSelect (Some sel) => sel ∈ id <$> missions sn.1
  | _ => True
  end →
  selection_listed sn.1 → selection_listed (step sn o).1.
Proof.
  destruct sn as [st n]. cbn [fst]. unfold selection_listed. intros Hsel Hst.
  destruct o as [| |target new_status|target|p| |sel]; cbn [step fst];
    try exact Hst.
  - unfold createMission. destruct (nonempty (trim (Form.name (missionsForm st))));
      cbn [fst missionsSelectedId missions]; [|exact Hst].
    rewrite fmap_cons. left.
  - destruct (update_touches_only_target n st target new_status)
      as (_ & Hids & _ & _ & _ & _ & Hselected).
    cbv zeta in Hids, Hselected. rewrite Hselected, Hids.
    destruct new_status; first [exact I | exact Hst].
  - cbn [deleteMission missionsSelectedId missions].
    destruct (decide (missionsSelectedId st = Some target)) as [_|Hne]; [exact I|].
    destruct (missionsSelectedId st) as [sel|]; [|exact I].
    apply list_elem_of_fmap in Hst as (m & Hm & Hin).
    apply list_elem_of_fmap. exists m. split; [exact Hm|].
    apply list_elem_of_filter. split; [|exact Hin].
    intros Heq. apply Hne. congruence.
  - cbn [selectMission missionsSelectedId missions]. destruct sel; [exact Hsel | exact I].
Qed.

(** X27: No dangling selection.  In a session starting from the empty state in
    which [selectMission] is only given the id of a listed mission (or
    [null]), the selected id always names a listed mission: creating selects
    the new mission, completing or cancelling clears the selection, and
    deleting the selected mission clears it. *)
Theorem selection_always_listed (ops : list op) :
  selects_listed ops (empty_state, 0%nat) →
  selection_listed (run_ops ops (empty_state, 0%nat)).1.
Proof.
  unfold run_ops.
  assert (Hstart : selection_listed (empty_state, 0%nat).1) by exact I.
  revert Hstart. generalize (empty_state, 0%nat).
  induction ops as [|o ops IH]; intros sn Hsn Hops; [exact Hsn|].
  destruct Hops as [Ho Hops]. cbn [fold_left].
  apply IH; [apply selection_listed_step; assumption | exact Hops].
Qed.

Lemma parse_list_nonempty s : Forall (λ piece, piece ≠ EmptyString) (parse_list s).
Proof.
  unfold parse_list. rewrite Forall_forall. intros piece Hin.
  apply list_elem_of_filter in Hin as [Hne _]. unfold nonempty in Hne.
  intros Heq. rewrite bool_decide_true in Hne by exact Heq. discriminate.
Qed.

(** X28: [createMission] validates and parses the form.  When the trimmed name
    is empty it only sets the error message: no mission is added, the form,
    its visibility and the selection stay, and the clock is not read.
    Otherwise the new mission is put first, before the unchanged older
    ones; it is pending with progress 0, created and updated at the same
    instant, with a one-entry timeline, and its agents and tags contain no
    empty string; it becomes the selection, the form is reset and hidden,
    and the error is cleared. *)
Theorem createMission_validates (n : nat) (st : MissionsState) :
  let st' := (createMission n st).1 in
  (trim (Form.name (missionsForm st)) = EmptyString →
     createMission n st
     = (mkState (missionsLoading st) (missions st) (Some "Mission name is required.")
          (missionsForm st) (missionsShowForm st) (missionsSelectedId st), n))
  ∧ (trim (Form.name (missionsForm st)) ≠ EmptyString →
     ∃ mission,
       missions st' = mission :: missions st
       ∧ missionsSelectedId st' = Some (id mission)
       ∧ missionsError st' = None
       ∧ missionsForm st' = DEFAULT_MISSIONS_FORM
       ∧ missionsShowForm st' = false
       ∧ name mission = trim (Form.name (missionsForm st))
       ∧ status mission = Pending ∧ progress mission = 0
       ∧ completedAt mission = None
       ∧ updatedAt mission = createdAt mission
       ∧ timeline mission = [mkEntry (createdAt mission) "Mission created" None None]
       ∧ Forall (λ a, a ≠ EmptyString) (agents mission)
       ∧ Forall (λ t, t ≠ EmptyString) (tags mission)).
Proof.
  intros st'. subst st'. unfold createMission, nonempty. split.
  - intros Hblank. rewrite bool_decide_true by exact Hblank. reflexivity.
  - intros Hname. rewrite bool_decide_false by exact Hname.
    cbn [negb fst missions missionsSelectedId missionsError missionsForm missionsShowForm].
    eexists. split; [reflexivity|].
    cbn [id name status progress completedAt updatedAt createdAt timeline agents tags].
    repeat split; apply parse_list_nonempty.
Qed.

End Controller.

(** [split(",")] keeps empty pieces, as in JavaScript. *)
Example split_comma_pieces :
  split_comma "main,,coder," = ["main"; ""; "coder"; ""]%string
  ∧ split_comma "" = [""]%string.
Proof. split; reflexivity. Qed.

(** A session that fills the form, creates a mission, selects it, starts
    it and deletes it (with a [trim] that finds nothing to trim and a
    generator that returns ["m1"]). *)
Lemma selection_always_listed_witness :
  selection_listed
    (run_ops (λ s, s) (λ n, Z.of_nat n) (λ _, "m1"%string)
       [OpPatch (Form.mkPatch (Some "Test"%string) None None None None);
        OpCreate; OpSelect (Some "m1"%string); OpUpdate "m1" Running; OpDelete "m1"]
       (empty_state, 0%nat)).1.
Proof.
  apply (selection_always_listed (λ s, s) (λ n, Z.of_nat n) (λ _, "m1"%string)
           [OpPatch (Form.mkPatch (Some "Test"%string) None None None None);
            OpCreate; OpSelect (Some "m1"%string); OpUpdate "m1" Running; OpDelete "m1"]).
  cbn. repeat split. left.
Defined.

End Missions.
